(** * Canny lane detector: kernel builder, grayscale converter, Gaussian stage

    A shallow embedding of [src/utils/cannyLaneDetector.py].

    - numpy arrays are objects in a heap; Python variables hold references
      to them, so in-place updates ([kernel[y, x] = ...], [kernel /= s]) and
      the absence of updates to an input are both visible in the model;
    - Python exceptions are results of the computation, the world reached
      before the [raise] is kept;
    - [float] and [np.float64] values are read in two ways. For the kernel
      builder ([F64], below) they are IEEE binary64 values, the primitive
      floats of Rocq: underflow, overflow, the infinities, NaN and rounding
      are those of the machine, and [np.exp], the order in which [np.sum]
      adds and the memory that is left are parameters ([F64.Env]). Every
      statement about the values of a kernel, about when the builder
      returns and about how it fails is made there. For the grayscale
      converter, and for what the Gaussian stage does with the heap and
      with the shape of its input, a float is read as the real number it
      denotes, which decides nothing there beyond the values of the
      samples; the two numpy conversions of the converter, [np.array] of a
      list and [astype(np.float32)], are parameters ([Numpy]);
    - arrays that a statement creates and drops (views, intermediate
      results) are values; an array that the program updates in place or
      returns is an object in the heap;
    - [readImg] and [rgbToGray] wrap OpenCV calls in [try ... except]:
      what [cv.imread] and [cv.cvtColor] answer is a parameter ([OpenCV]),
      the exceptions and the handlers are modelled. *)

From Stdlib Require Import Reals Lra Lia ZArith String Floats.
From stdpp Require Import base list list_numbers pretty.

Local Open Scope R_scope.
Local Open Scope string_scope.

(** ** numpy arrays *)

(** An array is its shape and its elements in row-major order. *)
Record ndarray := NdArray {
  shape : list nat;
  data : list R
}.

Definition ndim (a : ndarray) : nat := length (shape a).

Definition size_of (sh : list nat) : nat := foldr Nat.mul 1%nat sh.

Definition wf_ndarray (a : ndarray) : Prop :=
  length (data a) = size_of (shape a).

Definition with_data (a : ndarray) (d : list R) : ndarray :=
  {| shape := shape a; data := d |}.

(** [a[y, x]] of a 2-dimensional array, for indices in range. *)
Definition get2 (a : ndarray) (y x : nat) : option R :=
  match shape a with
  | [h; w] => if decide (y < h ∧ x < w)%nat then data a !! (y * w + x)%nat else None
  | _ => None
  end.

Definition Rsum (l : list R) : R := foldr Rplus 0 l.

(** ** Python values, exceptions and the world *)

Definition loc := nat.

(** A nested Python list of numbers. *)
#[warnings="-register-all"]
Inductive pylist :=
| PyNum (x : R)
| PySeq (items : list pylist).

Inductive pyobj :=
| PyNdarray (l : loc)
| PyList (v : pylist)
| PyOther.

Inductive exn :=
| TypeError (msg : string)
| ValueError (msg : string)
| IndexError (index : Z) (axis : nat) (size : nat)
| ZeroDivisionError (msg : string).

(** [Wrong] is reached only through a reference that is not in the heap, or
    through an indexing or a sum of arrays of a form the program does not
    use; no run of the Python program is in that state. *)
Inductive outcome (A : Type) :=
| Ok (a : A)
| Raise (e : exn)
| Wrong.
Arguments Ok {A} a.
Arguments Raise {A} e.
Arguments Wrong {A}.

Record World := mkWorld {
  heap : list ndarray;
  stdout : list string
}.

Definition M (A : Type) : Type := World → outcome A * World.

Definition ret {A} (a : A) : M A := λ w, (Ok a, w).

Definition bind {A B} (m : M A) (k : A → M B) : M B :=
  λ w, match m w with
       | (Ok a, w') => k a w'
       | (Raise e, w') => (Raise e, w')
       | (Wrong, w') => (Wrong, w')
       end.

Definition raise {A} (e : exn) : M A := λ w, (Raise e, w).
Definition wrong {A} : M A := λ w, (Wrong, w).

Definition lift {A} (r : exn + A) : M A :=
  match r with
  | inl e => raise e
  | inr a => ret a
  end.

Declare Scope py_scope.
Delimit Scope py_scope with py.
Notation "x <- c ;; k" := (bind c (λ x, k))
  (at level 100, c at next level, right associativity) : py_scope.
Notation "c ;;; k" := (bind c (λ _, k))
  (at level 100, right associativity) : py_scope.
Local Open Scope py_scope.

Definition print (s : string) : M unit :=
  λ w, (Ok tt, {| heap := heap w; stdout := stdout w ++ [s] |}).

Definition alloc (a : ndarray) : M loc :=
  λ w, (Ok (length (heap w)), {| heap := heap w ++ [a]; stdout := stdout w |}).

Definition load (l : loc) : M ndarray :=
  λ w, match heap w !! l with
       | Some a => (Ok a, w)
       | None => (Wrong, w)
       end.

Definition store (l : loc) (a : ndarray) : M unit :=
  λ w, match heap w !! l with
       | Some _ => (Ok tt, {| heap := <[l := a]> (heap w); stdout := stdout w |})
       | None => (Wrong, w)
       end.

(** [for x in xs: body] *)
Fixpoint for_ {A} (xs : list A) (body : A → M unit) : M unit :=
  match xs with
  | [] => ret tt
  | x :: xs' => body x ;;; for_ xs' body
  end.

(** [range(n)] *)
Definition range (n : Z) : list Z := seqZ 0 n.

(** ** The Python and numpy operations the program calls *)

(** [x / y] on Python floats read as reals: refused when [y] is 0. Over
    binary64 the divisor is 0.0 more often, see [F64.py_div]. *)
Definition py_div (x y : R) : M R :=
  if Req_dec_T y 0 then raise (ZeroDivisionError "float division by zero")
  else ret (x / y).

(** [int(x)] truncates towards zero. *)
Definition int (x : R) : Z := if Rle_dec 0 x then Zfloor x else Zceil x.

Definition np_ceil (x : R) : R := IZR (Zceil x).

(** [np.zeros(dims, dtype=np.float64)], on a machine with memory for every
    array; the limits of numpy and of the memory are in [F64.np_zeros]. *)
Definition np_zeros (dims : list Z) : M loc :=
  if decide (Forall (λ d, 0 ≤ d)%Z dims) then
    let sh := Z.to_nat <$> dims in
    alloc {| shape := sh; data := replicate (size_of sh) 0 |}
  else raise (ValueError "negative dimensions are not allowed").

(** An index on an axis of [size] entries; negative indices count from the
    end. *)
Definition index_axis (i : Z) (axis size : nat) : M nat :=
  if decide (0 ≤ i < Z.of_nat size)%Z then ret (Z.to_nat i)
  else if decide (- Z.of_nat size ≤ i < 0)%Z then ret (Z.to_nat (i + Z.of_nat size))
  else raise (IndexError i axis size).

(** [a[y, x] = v] on a 2-dimensional array. *)
Definition setitem2 (l : loc) (y x : Z) (v : R) : M unit :=
  a <- load l ;;
  match shape a with
  | [h; w] =>
      i <- index_axis y 0 h ;;
      j <- index_axis x 1 w ;;
      store l (with_data a (<[(i * w + j)%nat := v]> (data a)))
  | _ => wrong
  end.

(** [np.sum(a)] *)
Definition np_sum (l : loc) : M R :=
  a <- load l ;; ret (Rsum (data a)).

(** [a /= s] on a float array: in place, and numpy raises nothing when [s]
    is zero. *)
Definition np_itruediv (l : loc) (s : R) : M unit :=
  a <- load l ;;
  store l (with_data a ((λ v, v / s) <$> data a)).

(** [a[:, :, i]] of a 3-dimensional array. *)
Definition getitem_last (a : ndarray) (i : Z) : M ndarray :=
  match shape a with
  | [h; w; n] =>
      c <- index_axis i 2 n ;;
      ret {| shape := [h; w];
             data := (λ p, default 0 (data a !! (p * n + c)%nat)) <$> seq 0 (h * w) |}
  | _ => wrong
  end.

(** [c * a] for a Python float [c]. *)
Definition np_scale (c : R) (a : ndarray) : ndarray :=
  with_data a (Rmult c <$> data a).

(** [a + b] for arrays of one shape (the program adds no others). *)
Definition np_add (a b : ndarray) : M ndarray :=
  if decide (shape a = shape b) then ret (with_data a (zip_with Rplus (data a) (data b)))
  else wrong.

(** What this development takes from numpy as given. *)
Class Numpy := {
  (** [np.array(v)] of a nested list: the array, or the exception numpy
      raises for a list with no rectangular shape *)
  np_array : pylist → exn + ndarray;
  (** the value of a sample once it is stored as [np.float32] *)
  float32 : R → R
}.

(** [a.astype(np.float32)]: a new array. *)
Definition astype_float32 `{Numpy} (a : ndarray) : M loc :=
  alloc (with_data a (float32 <$> data a)).

(** ** class helperFunction *)

Module helperFunction.

(** The object has no attributes. *)
Inductive t : Set := Self.

Definition __init__ : M t :=
  print "=== Helper Function initialized ===" ;;; ret Self.

(** Lines 37-50 with floats read as reals: the reading under which the
    Gaussian stage is run. What the builder itself returns, and when it
    fails, is settled on [F64.createGaussianKernel]. *)
Definition createGaussianKernel (self : t) (sigma : R) : M loc :=
  let kernel_size := int (2 * np_ceil sigma + 1) in
  kernel <- np_zeros [kernel_size; kernel_size] ;;
  let center := (kernel_size / 2)%Z in
  for_ (range kernel_size) (λ y,
    for_ (range kernel_size) (λ x,
      let dx := (x - center)%Z in
      let dy := (y - center)%Z in
      norm <- py_div 1 (2 * PI * sigma ^ 2) ;;
      arg <- py_div (IZR (- (dx ^ 2 + dy ^ 2))) (2 * sigma ^ 2) ;;
      setitem2 kernel y x (norm * exp arg))) ;;;
  total <- np_sum kernel ;;
  np_itruediv kernel total ;;;
  ret kernel.

End helperFunction.

(** ** Exceptions that are caught

    [readImg] and [rgbToGray] raise and catch exceptions of two classes the
    rest of the program never meets; their computations live in [T], which
    knows these classes too. *)

Inductive raised :=
| FileNotFoundError (msg : string)
| cv_error (msg : string)
| Builtin (e : exn).

(** [str(e)] *)
Definition exn_str (e : exn) : string :=
  match e with
  | TypeError msg | ValueError msg | ZeroDivisionError msg => msg
  | IndexError index axis size =>
      ("index " ++ pretty index ++ " is out of bounds for axis " ++ pretty axis
       ++ " with size " ++ pretty size)%string
  end.

Definition str (e : raised) : string :=
  match e with
  | FileNotFoundError msg | cv_error msg => msg
  | Builtin e => exn_str e
  end.

Inductive attempt (A : Type) :=
| Returned (a : A)
| Threw (e : raised)
| Stuck.
Arguments Returned {A} a.
Arguments Threw {A} e.
Arguments Stuck {A}.

Definition T (A : Type) : Type := World → attempt A * World.

Definition retT {A} (a : A) : T A := λ w, (Returned a, w).

Definition bindT {A B} (m : T A) (k : A → T B) : T B :=
  λ w, match m w with
       | (Returned a, w') => k a w'
       | (Threw e, w') => (Threw e, w')
       | (Stuck, w') => (Stuck, w')
       end.

Definition throw {A} (e : raised) : T A := λ w, (Threw e, w).

(** A computation of the rest of the program, run inside [T]. *)
Definition liftT {A} (m : M A) : T A :=
  λ w, match m w with
       | (Ok a, w') => (Returned a, w')
       | (Raise e, w') => (Threw (Builtin e), w')
       | (Wrong, w') => (Stuck, w')
       end.

Notation "x <~ c ;; k" := (bindT c (λ x, k))
  (at level 100, c at next level, right associativity) : py_scope.
Notation "c ~;; k" := (bindT c (λ _, k))
  (at level 100, right associativity) : py_scope.

(** [try: body  except ...: ...]: [handlers] answers with the body of the
    first [except] clause that matches the exception, or with [None] when no
    clause does and the exception goes on. *)
Definition try_except {A} (body : T A) (handlers : raised → option (T A)) : T A :=
  λ w, match body w with
       | (Threw e, w') =>
           match handlers e with
           | Some handler => handler w'
           | None => (Threw e, w')
           end
       | r => r
       end.

(** What this development takes from OpenCV as given. *)
Class OpenCV := {
  (** [cv.imread(path)]: the image of the file, or [None] when there is no
      such file or it cannot be decoded *)
  imread : string → option ndarray;
  (** [cv.cvtColor(a, cv.COLOR_BGR2GRAY)]: the converted image, or the
      message of the [cv.error] it raises *)
  cvtColor_BGR2GRAY : ndarray → string + ndarray
}.

(** [cv.imread(path)] as a Python value: a new array, or [None]. *)
Definition cv_imread `{OpenCV} (path : string) : T (option loc) :=
  match imread path with
  | Some a => l <~ liftT (alloc a) ;; retT (Some l)
  | None => retT None
  end.

(** [cv.cvtColor(img, cv.COLOR_BGR2GRAY)] *)
Definition cv_cvtColor `{OpenCV} (img : loc) : T loc :=
  a <~ liftT (load img) ;;
  match cvtColor_BGR2GRAY a with
  | inr gray => liftT (alloc gray)
  | inl msg => throw (cv_error msg)
  end.

(** ** class cannyLaneDetector *)

Module cannyLaneDetector.

Record t := Self {
  gradThresh : R;
  firstThresh : R;
  secondThresh : R;
  utils : helperFunction.t
}.

Definition __init__ (gradThresh firstThresh secondThresh : R) : M t :=
  utils <- helperFunction.__init__ ;;
  ret {| gradThresh := gradThresh; firstThresh := firstThresh;
         secondThresh := secondThresh; utils := utils |}.

Definition readImg `{OpenCV} (self : t) (imgPath : string) : T (option loc) :=
  try_except
    (img <~ cv_imread imgPath ;;
     match img with
     | None =>
         throw (FileNotFoundError
                  ("Image not found or failed to load:" ++ imgPath)%string)
     | Some _ => retT img
     end)
    (λ e, match e with
          | FileNotFoundError _ =>
              Some (liftT (print ("[ERROR] " ++ str e)%string) ~;; retT None)
          | _ => None
          end).

Definition rgbToGrayScratch `{Numpy} (self : t) (img : pyobj) : M loc :=
  img <- match img with
         | PyList v => lift (np_array v)
         | PyNdarray l => load l
         | PyOther =>
             raise (TypeError
               "Input must be a Numpy array or a list convertible to a Numpy array.")
         end ;;
  if decide (ndim img = 3%nat) then
    r <- getitem_last img 0 ;;
    g <- getitem_last img 1 ;;
    b <- getitem_last img 3 ;;
    rg <- np_add (np_scale 0.2989 r) (np_scale 0.5870 g) ;;
    imgGray <- np_add rg (np_scale 0.1140 b) ;;
    astype_float32 imgGray
  else if decide (ndim img = 2%nat) then
    astype_float32 img
  else
    raise (ValueError
      "Input image must be either a 2D grayscale imaege or a 3D RGB image.").

(** A call that falls off the end of the function returns [None]. *)
Definition rgbToGray `{OpenCV} (self : t) (img : option loc) : T (option loc) :=
  try_except
    (match img with
     | None => throw (Builtin (ValueError "Input image is None"))
     | Some img =>
         grayImg <~ cv_cvtColor img ;;
         retT (Some grayImg)
     end)
    (λ e, match e with
          | cv_error _ =>
              Some (liftT (print ("[OpenCV Error] " ++ str e)%string) ~;; retT None)
          | _ =>
              Some (liftT (print ("[Unexpected Error] " ++ str e)%string) ~;; retT None)
          end).

Definition applyGaussianBlurScratch (self : t) (img : loc) (sigma : R) : M loc :=
  a <- load img ;;
  if decide (ndim a ≠ 2%nat) then
    raise (ValueError "Input image must be a grayscale image. Nothing else.")
  else
    kernel <- helperFunction.createGaussianKernel (utils self) sigma ;;
    ret kernel.

End cannyLaneDetector.

(** ** The kernel builder over binary64

    [helperFunction.createGaussianKernel] above reads a float as the real
    number it denotes: that is enough for what the callers do with the
    heap and with shapes, and it is wrong for the values and for the
    failures of the kernel builder itself, which depend on underflow,
    overflow and rounding. This module models lines 37-50 again over IEEE
    binary64 ([float], the primitive floats of Rocq). [np.exp], the order in
    which [np.sum] adds, and the memory of the machine are parameters
    ([Env]). The warnings that numpy writes to stderr (for a division by
    0.0 or an invalid value) are not modelled: they are no exceptions. *)

Module F64.

Record ndarray := NdArray {
  shape : list nat;
  data : list float
}.

Definition with_data (a : ndarray) (d : list float) : ndarray :=
  {| shape := shape a; data := d |}.

(** [a[y, x]] of a 2-dimensional array, for indices in range. *)
Definition get2 (a : ndarray) (y x : nat) : option float :=
  match shape a with
  | [h; w] => if (y <? h)%nat && (x <? w)%nat then data a !! (y * w + x)%nat else None
  | _ => None
  end.

Inductive exn :=
| ValueError (msg : string)
| OverflowError (msg : string)
| ZeroDivisionError (msg : string)
| MemoryError
| IndexError (index : Z) (axis : nat) (size : nat).

Inductive outcome (A : Type) :=
| Ok (a : A)
| Raise (e : exn)
| Wrong.
Arguments Ok {A} a.
Arguments Raise {A} e.
Arguments Wrong {A}.

Record World := mkWorld {
  heap : list ndarray;
  stdout : list string
}.

Definition M (A : Type) : Type := World → outcome A * World.

Definition ret {A} (a : A) : M A := λ w, (Ok a, w).

Definition bind {A B} (m : M A) (k : A → M B) : M B :=
  λ w, match m w with
       | (Ok a, w') => k a w'
       | (Raise e, w') => (Raise e, w')
       | (Wrong, w') => (Wrong, w')
       end.

Definition raise {A} (e : exn) : M A := λ w, (Raise e, w).
Definition wrong {A} : M A := λ w, (Wrong, w).

Declare Scope f64_scope.
Delimit Scope f64_scope with f64.
Notation "x <- c ;; k" := (bind c (λ x, k))
  (at level 100, c at next level, right associativity) : f64_scope.
Notation "c ;;; k" := (bind c (λ _, k))
  (at level 100, right associativity) : f64_scope.
Local Open Scope f64_scope.

Definition alloc (a : ndarray) : M loc :=
  λ w, (Ok (length (heap w)), {| heap := heap w ++ [a]; stdout := stdout w |}).

Definition load (l : loc) : M ndarray :=
  λ w, match heap w !! l with
       | Some a => (Ok a, w)
       | None => (Wrong, w)
       end.

Definition store (l : loc) (a : ndarray) : M unit :=
  λ w, match heap w !! l with
       | Some _ => (Ok tt, {| heap := <[l := a]> (heap w); stdout := stdout w |})
       | None => (Wrong, w)
       end.

(** [for x in xs: body] *)
Fixpoint for_ {A} (xs : list A) (body : A → M unit) : M unit :=
  match xs with
  | [] => ret tt
  | x :: xs' => body x ;;; for_ xs' body
  end.

(** *** Python floats and integers *)

(** The float nearest to an integer, ties to even. *)
Definition float_of_Z (z : Z) : float :=
  SF2Prim (binary_normalize prec emax z 0 false).

(** [np.pi] *)
Definition np_pi : float := 0x1.921fb54442d18p+1%float.

(** [np.ceil(x)]: [x] itself when it is an integer, a zero, an infinity or
    NaN; a negative [x] above -1 gives -0.0. *)
Definition np_ceil (x : float) : float :=
  match Prim2SF x with
  | S754_finite s m e =>
      if (0 <=? e)%Z then x
      else
        let q := (Z.pos m / 2 ^ (- e))%Z in
        let r := (Z.pos m mod 2 ^ (- e))%Z in
        if s then (- float_of_Z q)%float
        else float_of_Z (if (r =? 0)%Z then q else q + 1)
  | _ => x
  end.

(** The integer part of [m * 2^e]. *)
Definition truncate (m : positive) (e : Z) : Z :=
  if (0 <=? e)%Z then (Z.pos m * 2 ^ e)%Z else (Z.pos m / 2 ^ (- e))%Z.

(** [int(x)] truncates towards zero and refuses NaN and the infinities. *)
Definition int (x : float) : M Z :=
  match Prim2SF x with
  | S754_zero _ => ret 0%Z
  | S754_finite s m e => ret (if s then (- truncate m e)%Z else truncate m e)
  | S754_infinity _ => raise (OverflowError "cannot convert float infinity to integer")
  | S754_nan => raise (ValueError "cannot convert float NaN to integer")
  end.

(** [x ** 2] on a Python float: the C library's [pow(x, 2.0)], taken to be
    the correctly rounded square; Python refuses the result when a finite
    [x] has an infinite one, and lets an underflow to 0.0 pass. *)
Definition py_pow2 (x : float) : M float :=
  let p := (x * x)%float in
  if is_infinity p && negb (is_infinity x)
  then raise (OverflowError "(34, 'Numerical result out of range')")
  else ret p.

(** [x / y] on Python floats: refused when [y] is 0.0 or -0.0. *)
Definition py_div (x y : float) : M float :=
  if (y =? 0)%float then raise (ZeroDivisionError "float division by zero")
  else ret (x / y)%float.

(** An integer as the left operand of a float division: first its float,
    which Python refuses to make from 2^1024 - 2^970 on. *)
Definition float_limit : Z := (2 ^ 1024 - 2 ^ 970)%Z.

Definition py_int_div (n : Z) (y : float) : M float :=
  if (float_limit <=? Z.abs n)%Z
  then raise (OverflowError "int too large to convert to float")
  else py_div (float_of_Z n) y.

(** *** numpy *)

(** What this development takes from numpy and from the machine as
    given. *)
Class Env := {
  (** [np.exp(x)] *)
  np_exp : float → float;
  (** [np.sum] of the entries of an array, in the order numpy adds them *)
  np_sum_values : list float → float;
  (** whether an array of so many float64 entries can be allocated now *)
  can_allocate : nat → bool
}.

Definition intp_max : Z := (2 ^ 63 - 1)%Z.

(** [np.zeros((k, k), dtype=np.float64)] *)
Definition np_zeros `{Env} (k : Z) : M loc :=
  if (k <? - intp_max - 1)%Z || (intp_max <? k)%Z then
    raise (ValueError "Maximum allowed dimension exceeded")
  else if (k <? 0)%Z then
    raise (ValueError "negative dimensions are not allowed")
  else if (intp_max <? 8 * (k * k))%Z then
    raise (ValueError
      "array is too big; `arr.size * arr.dtype.itemsize` is larger than the maximum possible size.")
  else
    let n := Z.to_nat k in
    if can_allocate (n * n) then
      alloc {| shape := [n; n]; data := replicate (n * n) 0%float |}
    else raise MemoryError.

(** An index on an axis of [size] entries; negative indices count from the
    end. *)
Definition index_axis (i : Z) (axis size : nat) : M nat :=
  if (0 <=? i)%Z && (i <? Z.of_nat size)%Z then ret (Z.to_nat i)
  else if (- Z.of_nat size <=? i)%Z && (i <? 0)%Z then ret (Z.to_nat (i + Z.of_nat size))
  else raise (IndexError i axis size).

(** [a[y, x] = v] on a 2-dimensional array. *)
Definition setitem2 (l : loc) (y x : Z) (v : float) : M unit :=
  a <- load l ;;
  match shape a with
  | [h; w] =>
      i <- index_axis y 0 h ;;
      j <- index_axis x 1 w ;;
      store l (with_data a (<[(i * w + j)%nat := v]> (data a)))
  | _ => wrong
  end.

(** [np.sum(a)] *)
Definition np_sum `{Env} (l : loc) : M float :=
  a <- load l ;; ret (np_sum_values (data a)).

(** [a /= s]: in place; numpy raises nothing when [s] is zero or NaN. *)
Definition np_itruediv (l : loc) (s : float) : M unit :=
  a <- load l ;;
  store l (with_data a ((λ v, v / s)%float <$> data a)).

(** *** createGaussianKernel *)

(** Lines 37-47: the kernel before it is normalised. *)
Definition unnormalised_kernel `{Env} (sigma : float) : M loc :=
  kernel_size <- int (2 * np_ceil sigma + 1)%float ;;
  kernel <- np_zeros kernel_size ;;
  let center := (kernel_size / 2)%Z in
  for_ (range kernel_size) (λ y,
    for_ (range kernel_size) (λ x,
      let dx := (x - center)%Z in
      let dy := (y - center)%Z in
      square <- py_pow2 sigma ;;
      norm <- py_div 1 (2 * np_pi * square)%float ;;
      square' <- py_pow2 sigma ;;
      arg <- py_int_div (- (dx ^ 2 + dy ^ 2))%Z (2 * square')%float ;;
      setitem2 kernel y x (norm * np_exp arg)%float)) ;;;
  ret kernel.

(** Lines 37-50. *)
Definition createGaussianKernel `{Env} (self : helperFunction.t) (sigma : float) : M loc :=
  kernel <- unnormalised_kernel sigma ;;
  total <- np_sum kernel ;;
  np_itruediv kernel total ;;;
  ret kernel.

(** *** What the call does, as a function of sigma alone *)

Definition put (l : loc) (a : ndarray) (w : World) : World :=
  {| heap := <[l := a]> (heap w); stdout := stdout w |}.

Definition extend (w : World) (a : ndarray) : World :=
  {| heap := heap w ++ [a]; stdout := stdout w |}.

Definition empty_world : World := {| heap := []; stdout := [] |}.

Definition zeros (n : nat) : ndarray :=
  {| shape := [n; n]; data := replicate (n * n) 0%float |}.

(** The value the loop writes at row [y] and column [x] of a kernel whose
    centre index is [center]. *)
Definition entry `{Env} (sigma : float) (center : Z) (y x : nat) : float :=
  let dx := (Z.of_nat x - center)%Z in
  let dy := (Z.of_nat y - center)%Z in
  (1 / (2 * np_pi * (sigma * sigma)) *
   np_exp (float_of_Z (- (dx ^ 2 + dy ^ 2)) / (2 * (sigma * sigma))))%float.

Definition entries `{Env} (sigma : float) (k : Z) : list float :=
  let n := Z.to_nat k in
  (λ i, entry sigma (k / 2) (i / n) (i mod n)) <$> seq 0 (n * n).

Definition raw_kernel `{Env} (sigma : float) (k : Z) : ndarray :=
  {| shape := [Z.to_nat k; Z.to_nat k]; data := entries sigma k |}.

Definition normalised (raw : ndarray) (total : float) : ndarray :=
  with_data raw ((λ v, v / total)%float <$> data raw).

(** The exception the first pass through the loop body raises, if any. *)
Definition body_error (sigma : float) : option exn :=
  if is_infinity (sigma * sigma) && negb (is_infinity sigma) then
    Some (OverflowError "(34, 'Numerical result out of range')")
  else if (2 * np_pi * (sigma * sigma) =? 0)%float then
    Some (ZeroDivisionError "float division by zero")
  else if (2 * (sigma * sigma) =? 0)%float then
    Some (ZeroDivisionError "float division by zero")
  else None.

(** How the lines 37-47 end: refused before the array exists, abandoned in
    the first pass through the loop with the array of zeros left behind, or
    done. *)
Inductive verdict :=
| Refused (e : exn)
| Abandoned (e : exn) (k : Z)
| Built (k : Z).

Definition size_verdict `{Env} (sigma : float) (k : Z) : verdict :=
  if (k <? - intp_max - 1)%Z || (intp_max <? k)%Z then
    Refused (ValueError "Maximum allowed dimension exceeded")
  else if (k <? 0)%Z then
    Refused (ValueError "negative dimensions are not allowed")
  else if (intp_max <? 8 * (k * k))%Z then
    Refused (ValueError
      "array is too big; `arr.size * arr.dtype.itemsize` is larger than the maximum possible size.")
  else if can_allocate (Z.to_nat k * Z.to_nat k) then
    if (k =? 0)%Z then Built k
    else match body_error sigma with
         | Some e => Abandoned e k
         | None => Built k
         end
  else Refused MemoryError.

Definition verdict_of `{Env} (sigma : float) : verdict :=
  match Prim2SF (2 * np_ceil sigma + 1)%float with
  | S754_zero _ => size_verdict sigma 0
  | S754_finite s m e => size_verdict sigma (if s then (- truncate m e)%Z else truncate m e)
  | S754_infinity _ => Refused (OverflowError "cannot convert float infinity to integer")
  | S754_nan => Refused (ValueError "cannot convert float NaN to integer")
  end.

(** Whether the whole call fails, and with what. *)
Definition failure `{Env} (sigma : float) : option exn :=
  match verdict_of sigma with
  | Refused e | Abandoned e _ => Some e
  | Built _ => None
  end.

(** One pass through the body of the inner loop, for the proofs. *)
Definition loop_body `{Env} (sigma : float) (l : loc) (center y x : Z) : M unit :=
  let dx := (x - center)%Z in
  let dy := (y - center)%Z in
  square <- py_pow2 sigma ;;
  norm <- py_div 1 (2 * np_pi * square)%float ;;
  square' <- py_pow2 sigma ;;
  arg <- py_int_div (- (dx ^ 2 + dy ^ 2))%Z (2 * square')%float ;;
  setitem2 l y x (norm * np_exp arg)%float.

(** Row [y] of a grid of [n] columns after its first [m] entries have been
    written, and the grid after its first [m] rows have been. *)
Definition write_row (val : nat → nat → float) (n y : nat) (d : list float) (m : nat)
  : list float :=
  foldl (λ d x, <[(y * n + x)%nat := val y x]> d) d (seq 0 m).

Definition write_rows (val : nat → nat → float) (n : nat) (d : list float) (m : nat)
  : list float :=
  foldl (λ d y, write_row val n y d n) d (seq 0 m).



(** The real number that a finite float denotes (0 for the others). *)
Definition to_R (x : float) : R :=
  match Prim2SF x with
  | S754_finite s m e =>
      let a := if (0 <=? e)%Z then IZR (Z.pos m * 2 ^ e)
               else IZR (Z.pos m) / IZR (2 ^ (- e)) in
      if s then - a else a
  | _ => 0
  end.

Definition sigma_1e10 : float := 0x1.2a05f2p+33%float.

(** A machine for the examples: memory for every array, a sum from left to
    right, and for [np.exp] the polynomial of degree 20 of the exponential
    series. *)
Fixpoint series (x : float) (n : nat) (k : float) : float :=
  match n with
  | O => 1
  | S n' => (1 + x / k * series x n' (k + 1))%float
  end.

Definition lab : Env :=
  {| np_exp x := series x 20 1;
     np_sum_values l := foldl PrimFloat.add 0%float l;
     can_allocate _ := true |}.

End F64.

(** ** The kernel of the specification *)

(** The Gaussian at offset [(dx, dy)] from the centre. *)
Definition gaussian (sigma : R) (dx dy : Z) : R :=
  exp (- (IZR dx ^ 2 + IZR dy ^ 2) / (2 * sigma ^ 2)) / (2 * PI * sigma ^ 2).

(** Side and centre of the kernel. *)
Definition side (sigma : R) : Z := (2 * Zceil sigma + 1)%Z.
Definition centre (sigma : R) : Z := ((side sigma - 1) / 2)%Z.

(** The entries before normalisation, row by row: entry [i] is the one of
    row [i / k] and column [i mod k]. *)
Definition gaussian_entries (sigma : R) : list R :=
  let k := Z.to_nat (side sigma) in
  (λ i, gaussian sigma (Z.of_nat (i mod k) - centre sigma) (Z.of_nat (i / k) - centre sigma))
    <$> seq 0 (k * k).

Definition mass (sigma : R) : R := Rsum (gaussian_entries sigma).

Definition gaussian_kernel (sigma : R) : ndarray :=
  let k := Z.to_nat (side sigma) in
  {| shape := [k; k]; data := (λ v, v / mass sigma) <$> gaussian_entries sigma |}.

(** ** Worlds, updated *)

Definition put (l : loc) (a : ndarray) (w : World) : World :=
  {| heap := <[l := a]> (heap w); stdout := stdout w |}.

Definition extend (w : World) (a : ndarray) : World :=
  {| heap := heap w ++ [a]; stdout := stdout w |}.

Definition empty_world : World := {| heap := []; stdout := [] |}.

(** ** Writing a grid entry by entry

    Row [y] of a grid of [n] columns after its first [m] entries have been
    written, and the grid after its first [m] rows have been. *)

Definition write_row (val : nat → nat → R) (n y : nat) (d : list R) (m : nat) : list R :=
  foldl (λ d x, <[(y * n + x)%nat := val y x]> d) d (seq 0 m).

Definition write_rows (val : nat → nat → R) (n : nat) (d : list R) (m : nat) : list R :=
  foldl (λ d y, write_row val n y d n) d (seq 0 m).

(** The entry the loop body writes at row [y] and column [x]. *)
Definition loop_entry (sigma : R) (center : Z) (y x : nat) : R :=
  let dx := (Z.of_nat x - center)%Z in
  let dy := (Z.of_nat y - center)%Z in
  1 / (2 * PI * sigma ^ 2) * exp (IZR (- (dx ^ 2 + dy ^ 2)) / (2 * sigma ^ 2)).

(** ** The grayscale converter, described *)

(** The array a Python value stands for: the object it refers to, or the
    conversion of the list. *)
Definition denotes `{Numpy} (w : World) (img : pyobj) (a : ndarray) : Prop :=
  match img with
  | PyNdarray l => heap w !! l = Some a
  | PyList v => np_array v = inr a
  | PyOther => False
  end.

(** Sample [c] of pixel [p] in an image of [n] channels. *)
Definition channel (a : ndarray) (n c p : nat) : R :=
  default 0 (data a !! (p * n + c)%nat).

(** What the converter computes from an image of [n] channels. *)
Definition gray_of `{Numpy} (a : ndarray) (h w n : nat) : ndarray :=
  {| shape := [h; w];
     data := (λ p, float32 (0.2989 * channel a n 0 p + 0.5870 * channel a n 1 p
                            + 0.1140 * channel a n 3 p)) <$> seq 0 (h * w) |}.

Definition astype_of `{Numpy} (a : ndarray) : ndarray :=
  with_data a (float32 <$> data a).

Definition uniform_image (h w : nat) (v : R) : ndarray :=
  {| shape := [h; w; 3%nat]; data := replicate (h * w * 3) v |}.

(** Which index the three reads of [img[:, :, 0]], [img[:, :, 1]] and
    [img[:, :, 3]] fail on first, on an axis of [n ≤ 3] entries. *)
Definition first_bad_index (n : nat) : Z :=
  match n with
  | 0%nat => 0
  | 1%nat => 1
  | _ => 3
  end.

(** ** A numpy without rounding *)

Fixpoint list_shape (v : pylist) : list nat :=
  match v with
  | PyNum _ => []
  | PySeq items =>
      length items :: match items with
                      | [] => []
                      | x :: _ => list_shape x
                      end
  end.

Fixpoint list_data (v : pylist) : list R :=
  match v with
  | PyNum x => [x]
  | PySeq items => concat (map list_data items)
  end.

Fixpoint has_shape (sh : list nat) (v : pylist) : bool :=
  match v, sh with
  | PyNum _, [] => true
  | PySeq items, n :: sh' => Nat.eqb (length items) n && forallb (has_shape sh') items
  | _, _ => false
  end.

(** numpy's conversion of a rectangular list, and a [float32] that keeps
    every sample as it is. *)
Definition exact_numpy : Numpy :=
  {| np_array v :=
       if has_shape (list_shape v) v
       then inr {| shape := list_shape v; data := list_data v |}
       else inl (ValueError
         "setting an array element with a sequence. The requested array has an inhomogeneous shape.");
     float32 x := x |}.

Definition detector : cannyLaneDetector.t :=
  {| cannyLaneDetector.gradThresh := 0;
     cannyLaneDetector.firstThresh := 0;
     cannyLaneDetector.secondThresh := 0;
     cannyLaneDetector.utils := helperFunction.Self |}.

(** ** More vocabulary for the properties *)


(** The arrays the grayscale converter returns on: grids, and images of 4
    channels or more. *)
Definition converts (a : ndarray) : Prop :=
  ndim a = 2%nat ∨ ∃ h k n : nat, shape a = [h; k; n] ∧ (4 ≤ n)%nat.

(** The value of a variable that holds an array or [None]. *)
Definition to_pyobj (img : option loc) : pyobj :=
  match img with
  | Some l => PyNdarray l
  | None => PyOther
  end.

Definition printed (w : World) (line : string) : World :=
  {| heap := heap w; stdout := stdout w ++ [line] |}.

(** An OpenCV that finds no file and converts no image, and one that loads
    the same 1 x 1 image of three channels from every path. *)
Definition no_opencv : OpenCV :=
  {| imread _ := None; cvtColor_BGR2GRAY _ := inl "unsupported" |}.

Definition one_pixel_opencv : OpenCV :=
  {| imread _ := Some (uniform_image 1 1 7);
     cvtColor_BGR2GRAY a := inr {| shape := take 2 (shape a); data := [7] |} |}.

(** * Proofs *)

(** ** Worlds *)

Lemma put_id l a w : heap w !! l = Some a → put l a w = w.
Proof.
  intros Hl. destruct w as [h o]. unfold put. simpl in *.
  by rewrite list_insert_id.
Qed.

Lemma put_put l a b w : put l a (put l b w) = put l a w.
Proof. unfold put. simpl. by rewrite list_insert_insert_eq. Qed.

Lemma heap_put l a b w : heap w !! l = Some b → heap (put l a w) !! l = Some a.
Proof.
  intros Hl. simpl. apply list_lookup_insert_eq.
  by eapply lookup_lt_Some.
Qed.

Lemma put_extend w a b : put (length (heap w)) a (extend w b) = extend w a.
Proof.
  unfold put, extend. simpl. f_equal.
  rewrite insert_app_r_alt by lia. by rewrite Nat.sub_diag.
Qed.

Lemma heap_extend w a : heap (extend w a) !! length (heap w) = Some a.
Proof. simpl. rewrite lookup_app_r by lia. by rewrite Nat.sub_diag. Qed.

Lemma heap_extend_old w a l b : heap w !! l = Some b → heap (extend w a) !! l = Some b.
Proof. intros Hl. simpl. by apply lookup_app_l_Some. Qed.

(** ** Loops that update one object *)

Lemma for__fmap {A B} (g : A → B) (xs : list A) (body : B → M unit) :
  for_ (g <$> xs) body = for_ xs (λ x, body (g x)).
Proof. induction xs as [|x xs IH]; csimpl; [done | by rewrite IH]. Qed.

Lemma range_nat (n : Z) : range n = Z.of_nat <$> seq 0 (Z.to_nat n).
Proof.
  unfold range, seqZ. apply list_fmap_ext. intros _ i _. lia.
Qed.

Lemma for__update {A} (P : ndarray → Prop) (l : loc) (f : A → ndarray → ndarray)
    (xs : list A) (body : A → M unit) :
  (∀ x a, P a → P (f x a)) →
  (∀ x a w, x ∈ xs → heap w !! l = Some a → P a →
     body x w = (Ok tt, put l (f x a) w)) →
  ∀ a w, heap w !! l = Some a → P a →
    for_ xs body w = (Ok tt, put l (foldl (λ a x, f x a) a xs) w).
Proof.
  intros HP. induction xs as [|x xs IH]; intros Hbody a w Hl Ha; simpl.
  - by rewrite put_id.
  - unfold bind. rewrite (Hbody x a w) by (done || apply list_elem_of_here).
    rewrite (IH (λ x' a' w' Hx', Hbody x' a' w' (list_elem_of_further _ _ _ Hx'))
               (f x a) (put l (f x a) w)).
    + by rewrite put_put.
    + by eapply heap_put.
    + by apply HP.
Qed.

Lemma foldl_with_data {A} (g : A → list R → list R) (xs : list A) (a : ndarray) :
  foldl (λ a x, with_data a (g x (data a))) a xs
  = with_data a (foldl (λ d x, g x d) (data a) xs).
Proof.
  revert a. induction xs as [|x xs IH]; intros [sh d]; simpl; [done|].
  by rewrite IH.
Qed.

(** ** Writing a grid entry by entry *)

Section Fill.
Variable val : nat → nat → R.
Variable n : nat.

Lemma write_row_length y d m : length (write_row val n y d m) = length d.
Proof.
  unfold write_row. induction m as [|m IH]; [done|].
  rewrite seq_S, foldl_app. simpl. by rewrite length_insert.
Qed.

Lemma write_rows_length d m : length (write_rows val n d m) = length d.
Proof.
  unfold write_rows. induction m as [|m IH]; [done|].
  rewrite seq_S, foldl_app. simpl. by rewrite write_row_length.
Qed.

Lemma write_row_lookup y d m i :
  (y * n + m ≤ length d)%nat →
  write_row val n y d m !! i
  = if decide (y * n ≤ i < y * n + m)%nat then Some (val y (i - y * n)) else d !! i.
Proof.
  unfold write_row. induction m as [|m IH]; intros Hlen.
  - simpl. case_decide; [lia | done].
  - rewrite seq_S, foldl_app. simpl.
    destruct (decide (i = y * n + m)%nat) as [->|Hne].
    + rewrite list_lookup_insert_eq.
      * rewrite decide_True by lia. do 2 f_equal. lia.
      * fold (write_row val n y d m). rewrite write_row_length. lia.
    + rewrite list_lookup_insert_ne by done.
      rewrite IH by lia. repeat case_decide; (done || lia).
Qed.

Lemma write_rows_lookup d m i :
  (0 < n)%nat → (m * n ≤ length d)%nat →
  write_rows val n d m !! i
  = if decide (i < m * n)%nat then Some (val (i / n) (i mod n)) else d !! i.
Proof.
  intros Hn. unfold write_rows. induction m as [|m IH]; intros Hlen.
  - by rewrite decide_False by lia.
  - rewrite seq_S, foldl_app. simpl.
    pose proof (write_rows_length d m) as Hm. unfold write_rows in Hm.
    rewrite write_row_lookup by (rewrite Hm; lia).
    rewrite IH by lia.
    destruct (decide (m * n ≤ i < m * n + n)%nat) as [Hi|Hi].
    + rewrite decide_True by lia.
      assert (i / n = m)%nat as Hq by (symmetry; apply (Nat.div_unique i n m (i - m * n)); lia).
      assert (i mod n = i - m * n)%nat as Hr
        by (symmetry; apply (Nat.mod_unique i n m (i - m * n)); lia).
      by rewrite Hq, Hr.
    + repeat case_decide; (done || lia).
Qed.

Lemma write_rows_all d :
  (0 < n)%nat → length d = (n * n)%nat →
  write_rows val n d n = (λ i, val (i / n) (i mod n)) <$> seq 0 (n * n).
Proof.
  intros Hn Hlen. apply list_eq. intros i.
  rewrite write_rows_lookup by lia.
  rewrite list_lookup_fmap. case_decide as Hi.
  - by rewrite lookup_seq_lt.
  - rewrite lookup_seq_ge by lia. simpl. apply lookup_ge_None. lia.
Qed.
End Fill.

(** ** The operations, run *)

Lemma py_div_run x y w : y ≠ 0 → py_div x y w = (Ok (x / y), w).
Proof. intros Hy. unfold py_div. by destruct (Req_dec_T y 0). Qed.

Lemma py_div_zero x w :
  py_div x 0 w = (Raise (ZeroDivisionError "float division by zero"), w).
Proof. unfold py_div. by destruct (Req_dec_T 0 0). Qed.

Lemma index_axis_run (i size axis : nat) w :
  (i < size)%nat → index_axis (Z.of_nat i) axis size w = (Ok i, w).
Proof.
  intros Hi. unfold index_axis. rewrite decide_True by lia.
  by rewrite Nat2Z.id.
Qed.

Lemma setitem2_run l (y x h k : nat) v a w :
  heap w !! l = Some a → shape a = [h; k] → (y < h)%nat → (x < k)%nat →
  setitem2 l (Z.of_nat y) (Z.of_nat x) v w
  = (Ok tt, put l (with_data a (<[(y * k + x)%nat := v]> (data a))) w).
Proof.
  intros Hl Hsh Hy Hx. unfold setitem2, bind, load. rewrite Hl, Hsh.
  rewrite index_axis_run by done. rewrite index_axis_run by done.
  unfold store. by rewrite Hl.
Qed.

Lemma bind_ok {A B} (m : M A) (k : A → M B) a w w' :
  m w = (Ok a, w') → bind m k w = k a w'.
Proof. intros Hm. unfold bind. by rewrite Hm. Qed.

Lemma bind_raise {A B} (m : M A) (k : A → M B) e w w' :
  m w = (Raise e, w') → bind m k w = (Raise e, w').
Proof. intros Hm. unfold bind. by rewrite Hm. Qed.

(** One statement of a run: [step tac] when it returns, [stop] when it
    raises. *)
Ltac step tac := erewrite bind_ok by tac.
Ltac stop := erewrite bind_raise; [done|].

(** The constructors print the banner of the helper and touch nothing
    else. *)
Lemma cannyLaneDetector_init_run gradThresh firstThresh secondThresh w :
  cannyLaneDetector.__init__ gradThresh firstThresh secondThresh w
  = (Ok {| cannyLaneDetector.gradThresh := gradThresh;
           cannyLaneDetector.firstThresh := firstThresh;
           cannyLaneDetector.secondThresh := secondThresh;
           cannyLaneDetector.utils := helperFunction.Self |},
     {| heap := heap w;
        stdout := stdout w ++ ["=== Helper Function initialized ==="] |}).
Proof. reflexivity. Qed.

Lemma np_zeros_run (k : Z) w :
  (0 ≤ k)%Z →
  np_zeros [k; k] w
  = (Ok (length (heap w)),
     extend w {| shape := [Z.to_nat k; Z.to_nat k];
                 data := replicate (Z.to_nat k * Z.to_nat k) 0 |}).
Proof.
  intros Hk. unfold np_zeros. rewrite decide_True by (repeat constructor; lia).
  unfold alloc, extend. simpl. by rewrite Nat.mul_1_r.
Qed.

Lemma np_zeros_negative (k : Z) w :
  (k < 0)%Z →
  np_zeros [k; k] w = (Raise (ValueError "negative dimensions are not allowed"), w).
Proof.
  intros Hk. unfold np_zeros. rewrite decide_False; [done|].
  intros HF. apply Forall_cons in HF as [H0 _]. lia.
Qed.

(** ** Side and centre *)

Lemma Zceil_IZR (z : Z) : Zceil (IZR z) = z.
Proof. apply Zceil_eq. lra. Qed.

Lemma kernel_size_eq sigma : int (2 * np_ceil sigma + 1) = side sigma.
Proof.
  unfold int, np_ceil, side.
  replace (2 * IZR (Zceil sigma) + 1) with (IZR (2 * Zceil sigma + 1))
    by (rewrite plus_IZR, mult_IZR; lra).
  destruct (Rle_dec _ _); [apply ZfloorZ | apply Zceil_IZR].
Qed.

Lemma Zceil_nonneg sigma : -1 < sigma → (0 ≤ Zceil sigma)%Z.
Proof.
  intros Hs. destruct (Zceil_bound sigma) as [_ Hu].
  assert (IZR (-1) < IZR (Zceil sigma)) as Hlt by lra.
  apply lt_IZR in Hlt. lia.
Qed.

Lemma Zceil_negative sigma : sigma <= -1 → (Zceil sigma ≤ -1)%Z.
Proof.
  intros Hs. destruct (Zceil_bound sigma) as [Hl _].
  assert (IZR (Zceil sigma) < IZR 0) as Hlt by lra.
  apply lt_IZR in Hlt. lia.
Qed.

Lemma centre_eq sigma : centre sigma = Zceil sigma.
Proof. unfold centre, side. symmetry. apply Z.div_unique_exact; lia. Qed.

Lemma center_eq sigma : (side sigma / 2)%Z = centre sigma.
Proof.
  rewrite centre_eq. unfold side. symmetry.
  apply (Z.div_unique_pos _ _ _ 1); lia.
Qed.

Lemma square_pos sigma : sigma ≠ 0 → 0 < sigma ^ 2.
Proof. intros Hs. simpl. destruct (Rtotal_order sigma 0) as [?|[?|?]]; [nra | done | nra]. Qed.

Lemma IZR_square (z : Z) : IZR (z ^ 2) = IZR z ^ 2.
Proof. exact (eq_sym (pow_IZR z 2)). Qed.

Lemma norm_nonzero sigma : sigma ≠ 0 → 2 * PI * sigma ^ 2 ≠ 0.
Proof.
  intros Hs. pose proof PI_RGT_0.
  assert (0 < sigma ^ 2) by (by apply square_pos). nra.
Qed.

Lemma spread_nonzero sigma : sigma ≠ 0 → 2 * sigma ^ 2 ≠ 0.
Proof. intros Hs. assert (0 < sigma ^ 2) by (by apply square_pos). lra. Qed.

Lemma loop_entry_gaussian sigma c y x :
  sigma ≠ 0 →
  loop_entry sigma c y x = gaussian sigma (Z.of_nat x - c) (Z.of_nat y - c).
Proof.
  intros Hs. unfold loop_entry, gaussian. cbv zeta.
  rewrite opp_IZR, plus_IZR, !IZR_square.
  field. split; [done | apply PI_neq0].
Qed.

(** ** The kernel builder, run *)

Lemma kernel_row_run sigma (l : loc) (n y : nat) (c : Z) a w :
  sigma ≠ 0 → heap w !! l = Some a → shape a = [n; n] → (y < n)%nat →
  for_ (range (Z.of_nat n)) (λ x,
    let dx := (x - c)%Z in
    let dy := (Z.of_nat y - c)%Z in
    norm <- py_div 1 (2 * PI * sigma ^ 2) ;;
    arg <- py_div (IZR (- (dx ^ 2 + dy ^ 2))) (2 * sigma ^ 2) ;;
    setitem2 l (Z.of_nat y) x (norm * exp arg)) w
  = (Ok tt, put l (with_data a (write_row (loop_entry sigma c) n y (data a) n)) w).
Proof.
  intros Hs Hl Hsh Hy. rewrite range_nat, Nat2Z.id, for__fmap.
  rewrite (for__update (λ a, shape a = [n; n]) l
             (λ x a, with_data a (<[(y * n + x)%nat := loop_entry sigma c y x]> (data a)))
             _ _ ltac:(done)) with (a := a); [| | done | done].
  { by rewrite (foldl_with_data
                  (λ x d, <[(y * n + x)%nat := loop_entry sigma c y x]> d)). }
  intros x a' w' Hx Hl' Hsh'. apply elem_of_seq in Hx. cbv zeta.
  step ltac:(apply py_div_run, norm_nonzero; done).
  step ltac:(apply py_div_run, spread_nonzero; done).
  by erewrite setitem2_run by (done || lia).
Qed.

Lemma np_sum_run l a w : heap w !! l = Some a → np_sum l w = (Ok (Rsum (data a)), w).
Proof. intros Hl. unfold np_sum, bind, load. by rewrite Hl. Qed.

Lemma np_itruediv_run l s a w :
  heap w !! l = Some a →
  np_itruediv l s w = (Ok tt, put l (with_data a ((λ v, v / s) <$> data a)) w).
Proof.
  intros Hl. unfold np_itruediv, bind, load. rewrite Hl.
  unfold store. by rewrite Hl.
Qed.

Lemma loop_entries_gaussian sigma :
  sigma ≠ 0 →
  let n := Z.to_nat (side sigma) in
  (λ i, loop_entry sigma (side sigma / 2) (i / n) (i mod n)) <$> seq 0 (n * n)
  = gaussian_entries sigma.
Proof.
  intros Hs n. unfold gaussian_entries. fold n. apply list_fmap_ext.
  intros _ i _. rewrite loop_entry_gaussian by done. by rewrite center_eq.
Qed.

Lemma createGaussianKernel_run self sigma w :
  -1 < sigma → sigma ≠ 0 →
  helperFunction.createGaussianKernel self sigma w
  = (Ok (length (heap w)), extend w (gaussian_kernel sigma)).
Proof.
  intros Hlo Hs. unfold helperFunction.createGaussianKernel.
  rewrite kernel_size_eq. cbv zeta.
  pose proof (Zceil_nonneg sigma Hlo) as Hc.
  assert (1 ≤ side sigma)%Z as Hside by (unfold side; lia).
  step ltac:(apply np_zeros_run; lia).
  set (n := Z.to_nat (side sigma)). set (l := length (heap w)).
  set (zeros := {| shape := [n; n]; data := replicate (n * n) 0 |}).
  assert (0 < n)%nat as Hn by lia.
  erewrite bind_ok; cycle 1.
  { replace (side sigma) with (Z.of_nat n) at 1 by lia.
    rewrite range_nat, Nat2Z.id, for__fmap.
    apply (for__update (λ a, shape a = [n; n]) l
             (λ y a, with_data a
                (write_row (loop_entry sigma (side sigma / 2)) n y (data a) n)))
      with (a := zeros); [done | | apply heap_extend | done].
    intros y a w' Hy Hl Hsh. apply elem_of_seq in Hy.
    replace (side sigma) with (Z.of_nat n) at 1 by lia.
    apply kernel_row_run; (done || lia). }
  rewrite (foldl_with_data
             (λ y d, write_row (loop_entry sigma (side sigma / 2)) n y d n)).
  simpl data.
  change (foldl _ (replicate (n * n) 0) (seq 0 n))
    with (write_rows (loop_entry sigma (side sigma / 2)) n (replicate (n * n) 0) n).
  rewrite write_rows_all by (done || by rewrite length_replicate).
  subst n l zeros. rewrite loop_entries_gaussian by done.
  rewrite put_extend.
  step ltac:(apply np_sum_run, heap_extend).
  step ltac:(apply np_itruediv_run, heap_extend).
  by rewrite put_extend.
Qed.

Lemma createGaussianKernel_negative self sigma w :
  sigma <= -1 →
  helperFunction.createGaussianKernel self sigma w
  = (Raise (ValueError "negative dimensions are not allowed"), w).
Proof.
  intros Hs. unfold helperFunction.createGaussianKernel.
  rewrite kernel_size_eq. cbv zeta.
  pose proof (Zceil_negative sigma Hs).
  stop.
  apply np_zeros_negative. unfold side. lia.
Qed.

Lemma createGaussianKernel_zero self w :
  helperFunction.createGaussianKernel self 0 w
  = (Raise (ZeroDivisionError "float division by zero"),
     extend w {| shape := [1%nat; 1%nat]; data := [0] |}).
Proof.
  unfold helperFunction.createGaussianKernel.
  rewrite kernel_size_eq. cbv zeta.
  assert (side 0 = 1%Z) as -> by (unfold side; by rewrite (Zceil_IZR 0)).
  step ltac:(apply np_zeros_run; lia).
  stop.
  rewrite range_nat. simpl.
  do 3 stop.
  replace (2 * PI * (0 * (0 * 1))) with 0 by lra.
  apply py_div_zero.
Qed.

(** ** The grayscale converter, run *)

Lemma getitem_last_run a (h w n c : nat) world :
  shape a = [h; w; n] → (c < n)%nat →
  getitem_last a (Z.of_nat c) world
  = (Ok {| shape := [h; w]; data := channel a n c <$> seq 0 (h * w) |}, world).
Proof.
  intros Hsh Hc. unfold getitem_last. rewrite Hsh.
  by step ltac:(by apply index_axis_run).
Qed.

Lemma getitem_last_out_of_bounds a (h w n c : nat) world :
  shape a = [h; w; n] → (n ≤ c)%nat →
  getitem_last a (Z.of_nat c) world = (Raise (IndexError (Z.of_nat c) 2 n), world).
Proof.
  intros Hsh Hc. unfold getitem_last. rewrite Hsh.
  stop.
  unfold index_axis. rewrite !decide_False by lia. done.
Qed.

Lemma zip_with_plus_fmap {A} (f g : A → R) (l : list A) :
  zip_with Rplus (f <$> l) (g <$> l) = (λ x, f x + g x) <$> l.
Proof. induction l as [|x l IH]; csimpl; [done | by rewrite IH]. Qed.

Section Converter.
Context `{Numpy}.

Lemma input_run (img : pyobj) a w :
  denotes w img a →
  match img with
  | PyList v => lift (np_array v)
  | PyNdarray l => load l
  | PyOther =>
      raise (TypeError
        "Input must be a Numpy array or a list convertible to a Numpy array.")
  end w = (Ok a, w).
Proof.
  destruct img as [l|v|]; simpl; intros Hd; [| | done].
  - unfold load. by rewrite Hd.
  - by rewrite Hd.
Qed.

Lemma rgbToGrayScratch_2d self img a w :
  denotes w img a → ndim a = 2%nat →
  cannyLaneDetector.rgbToGrayScratch self img w
  = (Ok (length (heap w)), extend w (astype_of a)).
Proof.
  intros Hd Hn. unfold cannyLaneDetector.rgbToGrayScratch.
  step ltac:(by apply input_run).
  rewrite decide_False by lia. by rewrite decide_True by done.
Qed.

Lemma rgbToGrayScratch_other_rank self img a w :
  denotes w img a → ndim a ≠ 2%nat → ndim a ≠ 3%nat →
  cannyLaneDetector.rgbToGrayScratch self img w
  = (Raise (ValueError
      "Input image must be either a 2D grayscale imaege or a 3D RGB image."), w).
Proof.
  intros Hd H2 H3. unfold cannyLaneDetector.rgbToGrayScratch.
  step ltac:(by apply input_run).
  by rewrite !decide_False by done.
Qed.

Lemma rgbToGrayScratch_3d_few_channels self img a (h k n : nat) w :
  denotes w img a → shape a = [h; k; n] → (n ≤ 3)%nat →
  cannyLaneDetector.rgbToGrayScratch self img w
  = (Raise (IndexError (first_bad_index n) 2 n), w).
Proof.
  intros Hd Hsh Hn. unfold cannyLaneDetector.rgbToGrayScratch.
  step ltac:(by apply input_run).
  rewrite decide_True by (unfold ndim; by rewrite Hsh).
  destruct n as [|[|n]].
  - stop.
    by apply (getitem_last_out_of_bounds a h k 0 0).
  - step ltac:(by apply (getitem_last_run a h k 1 0); [|lia]).
    stop.
    by apply (getitem_last_out_of_bounds a h k 1 1).
  - step ltac:(by apply (getitem_last_run a h k (S (S n)) 0); [|lia]).
    step ltac:(by apply (getitem_last_run a h k (S (S n)) 1); [|lia]).
    stop.
    apply (getitem_last_out_of_bounds a h k (S (S n)) 3); [done | lia].
Qed.

Lemma rgbToGrayScratch_3d_more_channels self img a (h k n : nat) w :
  denotes w img a → shape a = [h; k; n] → (4 ≤ n)%nat →
  cannyLaneDetector.rgbToGrayScratch self img w
  = (Ok (length (heap w)), extend w (gray_of a h k n)).
Proof.
  intros Hd Hsh Hn. unfold cannyLaneDetector.rgbToGrayScratch.
  step ltac:(by apply input_run).
  rewrite decide_True by (unfold ndim; by rewrite Hsh).
  step ltac:(by apply (getitem_last_run a h k n 0); [|lia]).
  step ltac:(by apply (getitem_last_run a h k n 1); [|lia]).
  step ltac:(by apply (getitem_last_run a h k n 3); [|lia]).
  unfold np_add, np_scale, with_data. simpl.
  rewrite decide_True by done. unfold bind at 1. simpl.
  rewrite decide_True by done. unfold bind at 1. simpl.
  unfold astype_float32, alloc, extend, gray_of, with_data. simpl.
  do 3 f_equal.
  rewrite <- !list_fmap_compose, !zip_with_plus_fmap, <- list_fmap_compose.
  done.
Qed.
End Converter.

(** ** The Gaussian stage, run *)

Lemma applyGaussianBlurScratch_2d self img a sigma w :
  heap w !! img = Some a → ndim a = 2%nat →
  cannyLaneDetector.applyGaussianBlurScratch self img sigma w
  = helperFunction.createGaussianKernel (cannyLaneDetector.utils self) sigma w.
Proof.
  intros Hl Hn. unfold cannyLaneDetector.applyGaussianBlurScratch.
  unfold bind at 1, load. rewrite Hl.
  rewrite decide_False by (intros Hne; by apply Hne).
  unfold bind, ret. by destruct (helperFunction.createGaussianKernel _ _ _) as [[]].
Qed.

(** * The Gaussian stage *)

(** C2 at a 1 x 2 grid and sigma = 1: the stage returns the 3 x 3 kernel of
    sigma, not a grid of the shape of its input; the input has no part in
    the result. *)
Theorem applyGaussianBlurScratch_returns_kernel self :
  let img := {| shape := [1%nat; 2%nat]; data := [0; 255] |} in
  let w := extend empty_world img in
  ∃ a,
    cannyLaneDetector.applyGaussianBlurScratch self 0%nat 1 w = (Ok 1%nat, extend w a) ∧
    helperFunction.createGaussianKernel (cannyLaneDetector.utils self) 1 w
    = (Ok 1%nat, extend w a) ∧
    shape a = [3%nat; 3%nat] ∧
    shape a ≠ shape img.
Proof.
  intros img w. exists (gaussian_kernel 1).
  assert (side 1 = 3%Z) as Hside by (unfold side; by rewrite (Zceil_IZR 1)).
  split_and!.
  - rewrite (applyGaussianBlurScratch_2d _ _ img) by done.
    apply (createGaussianKernel_run _ 1 w); lra.
  - apply (createGaussianKernel_run _ 1 w); lra.
  - unfold gaussian_kernel. simpl. by rewrite Hside.
  - unfold gaussian_kernel. simpl. by rewrite Hside.
Qed.

(** C10: on an input whose number of dimensions is not 2, the Gaussian
    stage raises the ValueError of its first statement, whatever sigma is,
    and the world is left as it was: the input is not modified and no
    kernel has been allocated. *)
Theorem applyGaussianBlurScratch_rejects_other_ranks self img a sigma w :
  heap w !! img = Some a →
  ndim a ≠ 2%nat →
  cannyLaneDetector.applyGaussianBlurScratch self img sigma w
  = (Raise (ValueError "Input image must be a grayscale image. Nothing else."), w).
Proof.
  intros Hl Hn. unfold cannyLaneDetector.applyGaussianBlurScratch.
  unfold bind, load. rewrite Hl. by rewrite decide_True by done.
Qed.

Lemma applyGaussianBlurScratch_rejects_other_ranks_witness :
  let w := extend empty_world (uniform_image 2 2 7) in
  heap w !! 0%nat = Some (uniform_image 2 2 7) ∧
  ndim (uniform_image 2 2 7) ≠ 2%nat ∧
  cannyLaneDetector.applyGaussianBlurScratch detector 0%nat 0 w
  = (Raise (ValueError "Input image must be a grayscale image. Nothing else."), w).
Proof.
  intros w.
  assert (ndim (uniform_image 2 2 7) ≠ 2%nat) as Hn by (unfold ndim; simpl; lia).
  split_and!; [reflexivity | exact Hn |].
  exact (applyGaussianBlurScratch_rejects_other_ranks
           detector 0%nat (uniform_image 2 2 7) 0 w eq_refl Hn).
Defined.

(** * The grayscale converter *)

(** C8: a 2-dimensional input, an array or a list that numpy converts to
    one, is passed through: the converter returns a new array of the same
    shape, each sample of which is the input sample stored as float32; the
    input object is left as it was. *)
Theorem rgbToGrayScratch_passes_grid_through `{Numpy} self img a w :
  denotes w img a →
  ndim a = 2%nat →
  ∃ out,
    cannyLaneDetector.rgbToGrayScratch self img w = (Ok (length (heap w)), extend w out) ∧
    shape out = shape a ∧
    (∀ y x v, get2 a y x = Some v → get2 out y x = Some (float32 v)) ∧
    (∀ l b, heap w !! l = Some b → heap (extend w out) !! l = Some b).
Proof.
  intros Hd Hn. exists (astype_of a). split_and!.
  - by apply rgbToGrayScratch_2d.
  - done.
  - intros y x v. unfold get2. simpl.
    destruct (shape a) as [|h [|k [|? ?]]]; try done.
    case_decide; [|done]. rewrite list_lookup_fmap. by intros ->.
  - intros l b. apply heap_extend_old.
Qed.

Lemma rgbToGrayScratch_passes_grid_through_witness :
  let a := {| shape := [1%nat; 2%nat]; data := [0; 255] |} in
  let w := extend empty_world a in
  denotes (H := exact_numpy) w (PyNdarray 0%nat) a ∧
  ndim a = 2%nat ∧
  ∃ out,
    cannyLaneDetector.rgbToGrayScratch (H := exact_numpy) detector (PyNdarray 0%nat) w
    = (Ok (length (heap w)), extend w out) ∧
    shape out = shape a ∧
    (∀ y x v, get2 a y x = Some v → get2 out y x = Some (float32 (Numpy := exact_numpy) v)) ∧
    (∀ l b, heap w !! l = Some b → heap (extend w out) !! l = Some b).
Proof.
  intros a w. split_and!; [reflexivity | reflexivity |].
  exact (rgbToGrayScratch_passes_grid_through (H := exact_numpy)
           detector (PyNdarray 0%nat) a w eq_refl eq_refl).
Defined.


(** C3, what the code does instead: the outcome of the converter on an
    input that stands for an array is decided by the shape alone. Two
    dimensions: it returns. Three dimensions with at most 3 entries on the
    last axis, three channels included: IndexError. Three dimensions with 4
    entries or more on the last axis: it returns. Any other number of
    dimensions: the ValueError of the last branch. *)
Theorem rgbToGrayScratch_outcome `{Numpy} self img a w :
  denotes w img a →
  (cannyLaneDetector.rgbToGrayScratch self img w).1
  = match shape a with
    | [_; _] => Ok (length (heap w))
    | [_; _; n] =>
        if decide (n ≤ 3)%nat then Raise (IndexError (first_bad_index n) 2 n)
        else Ok (length (heap w))
    | _ =>
        Raise (ValueError
          "Input image must be either a 2D grayscale imaege or a 3D RGB image.")
    end.
Proof.
  intros Hd. destruct (shape a) as [|h [|k [|n [|? ?]]]] eqn:Hsh.
  - rewrite (rgbToGrayScratch_other_rank self img a); unfold ndim; by rewrite ?Hsh.
  - rewrite (rgbToGrayScratch_other_rank self img a); unfold ndim; by rewrite ?Hsh.
  - rewrite (rgbToGrayScratch_2d self img a); unfold ndim; by rewrite ?Hsh.
  - case_decide.
    + by rewrite (rgbToGrayScratch_3d_few_channels self img a h k n).
    + by rewrite (rgbToGrayScratch_3d_more_channels self img a h k n) by (done || lia).
  - rewrite (rgbToGrayScratch_other_rank self img a); unfold ndim; by rewrite ?Hsh.
Qed.

Lemma rgbToGrayScratch_outcome_witness :
  let rgb := {| shape := [1%nat; 1%nat; 3%nat]; data := [10; 20; 30] |} in
  let w := extend empty_world rgb in
  denotes (H := exact_numpy) w (PyNdarray 0%nat) rgb ∧
  (cannyLaneDetector.rgbToGrayScratch (H := exact_numpy) detector (PyNdarray 0%nat) w).1
  = Raise (IndexError 3 2 3).
Proof.
  intros rgb w. split; [reflexivity|].
  exact (rgbToGrayScratch_outcome (H := exact_numpy) detector (PyNdarray 0%nat) rgb w eq_refl).
Defined.

(** C7, what the code does instead: on the image of any height and width
    whose three channels all hold the value v, the converter raises
    IndexError and returns no grid. *)
Theorem rgbToGrayScratch_uniform_image_fails `{Numpy} self (h k : nat) (v : R) w :
  let img := PyNdarray (length (heap w)) in
  cannyLaneDetector.rgbToGrayScratch self img (extend w (uniform_image h k v))
  = (Raise (IndexError 3 2 3), extend w (uniform_image h k v)).
Proof.
  intros img.
  apply (rgbToGrayScratch_3d_few_channels self img (uniform_image h k v) h k 3);
    [apply heap_extend | done | lia].
Qed.

(** A list is converted first: [[0, 255]] comes back as a new 1 x 2 array. *)
Example rgbToGrayScratch_of_list :
  cannyLaneDetector.rgbToGrayScratch (H := exact_numpy) detector
    (PyList (PySeq [PySeq [PyNum 0; PyNum 255]])) empty_world
  = (Ok 0%nat, extend empty_world {| shape := [1%nat; 2%nat]; data := [0; 255] |}).
Proof.
  by rewrite (rgbToGrayScratch_2d (H := exact_numpy) detector _
                {| shape := [1%nat; 2%nat]; data := [0; 255] |}).
Qed.

(** * Further properties *)

(** X7: whatever sigma is, and also when the call fails,
    [createGaussianKernel] prints nothing, changes no array that existed
    before the call, and leaves at most one new array behind. *)
Theorem createGaussianKernel_frame self sigma w :
  let w' := (helperFunction.createGaussianKernel self sigma w).2 in
  stdout w' = stdout w ∧
  (∀ l b, heap w !! l = Some b → heap w' !! l = Some b) ∧
  (length (heap w') ≤ S (length (heap w)))%nat ∧
  (helperFunction.createGaussianKernel self sigma w).1 ≠ Wrong.
Proof.
  destruct (Rle_dec sigma (-1)) as [Hneg|Hlo].
  - rewrite createGaussianKernel_negative by done. simpl. split_and!; (done || lia).
  - destruct (Req_dec_T sigma 0) as [->|Hs].
    + rewrite createGaussianKernel_zero. cbv zeta.
      split_and!; try done.
      * intros l b. apply heap_extend_old.
      * simpl. rewrite length_app. simpl. lia.
    + rewrite createGaussianKernel_run by (done || lra). cbv zeta.
      split_and!; try done.
      * intros l b. apply heap_extend_old.
      * simpl. rewrite length_app. simpl. lia.
Qed.

(** ** The grayscale converter: worlds, shapes, channels *)

Section ConverterMore.
Context `{Numpy}.

Lemma rgbToGrayScratch_denoted self img a w :
  denotes w img a →
  (∃ e, cannyLaneDetector.rgbToGrayScratch self img w = (Raise e, w)) ∨
  (∃ out, cannyLaneDetector.rgbToGrayScratch self img w
          = (Ok (length (heap w)), extend w out)).
Proof.
  intros Hd. destruct (shape a) as [|h [|k [|n [|? ?]]]] eqn:Hsh.
  - left. eexists. apply (rgbToGrayScratch_other_rank self img a); unfold ndim; by rewrite ?Hsh.
  - left. eexists. apply (rgbToGrayScratch_other_rank self img a); unfold ndim; by rewrite ?Hsh.
  - right. eexists. apply (rgbToGrayScratch_2d self img a); unfold ndim; by rewrite ?Hsh.
  - destruct (decide (n ≤ 3)%nat).
    + left. eexists. by apply (rgbToGrayScratch_3d_few_channels self img a h k n).
    + right. eexists. apply (rgbToGrayScratch_3d_more_channels self img a h k n); (done || lia).
  - left. eexists. apply (rgbToGrayScratch_other_rank self img a); unfold ndim; by rewrite ?Hsh.
Qed.

Lemma rgbToGrayScratch_cases self img w :
  (∃ r, cannyLaneDetector.rgbToGrayScratch self img w = (r, w) ∧ ∀ l, r ≠ Ok l) ∨
  (∃ out, cannyLaneDetector.rgbToGrayScratch self img w
          = (Ok (length (heap w)), extend w out)).
Proof.
  assert (∀ a, denotes w img a →
    (∃ r, cannyLaneDetector.rgbToGrayScratch self img w = (r, w) ∧ ∀ l, r ≠ Ok l) ∨
    (∃ out, cannyLaneDetector.rgbToGrayScratch self img w
            = (Ok (length (heap w)), extend w out))) as Hden.
  { intros a Hd. destruct (rgbToGrayScratch_denoted self img a w Hd) as [[e He]|Hout].
    - left. exists (Raise e). by split.
    - by right. }
  destruct img as [l|v|].
  - destruct (heap w !! l) as [a|] eqn:Hl; [by apply (Hden a)|].
    left. exists Wrong. split; [|done].
    unfold cannyLaneDetector.rgbToGrayScratch, bind, load. by rewrite Hl.
  - destruct (np_array v) as [e|a] eqn:Hv; [|by apply (Hden a)].
    left. exists (Raise e). split; [|done].
    unfold cannyLaneDetector.rgbToGrayScratch, bind. simpl. by rewrite Hv.
  - left. eexists. split; [reflexivity | done].
Qed.
End ConverterMore.

(** X8: for every input and in every world, also when it fails,
    [rgbToGrayScratch] prints nothing and changes no array that existed
    before the call; when it returns, the array it returns is a new object,
    never the input. *)
Theorem rgbToGrayScratch_frame `{Numpy} self img w :
  let r := (cannyLaneDetector.rgbToGrayScratch self img w).1 in
  let w' := (cannyLaneDetector.rgbToGrayScratch self img w).2 in
  stdout w' = stdout w ∧
  (∀ l b, heap w !! l = Some b → heap w' !! l = Some b) ∧
  (∀ l, r = Ok l → heap w !! l = None ∧ is_Some (heap w' !! l)).
Proof.
  destruct (rgbToGrayScratch_cases self img w) as [(r & -> & Hr)|(out & ->)]; cbv zeta.
  - simpl. split_and!; try done. intros l Hl. by destruct (Hr l).
  - simpl fst. simpl snd. split_and!; try done.
    + intros l b. apply heap_extend_old.
    + intros l [= <-]. split; [apply lookup_ge_None; lia|].
      rewrite heap_extend. by eexists.
Qed.

(** X9: on a grid and on an image of 4 channels or more, [rgbToGrayScratch]
    returns a 2-dimensional array whose height and width are those of the
    input; it holds one sample for each pixel (for a grid, provided the
    grid itself does). *)
Theorem rgbToGrayScratch_result_shape `{Numpy} self img a w :
  denotes w img a →
  converts a →
  ∃ out,
    cannyLaneDetector.rgbToGrayScratch self img w
    = (Ok (length (heap w)), extend w out) ∧
    shape out = take 2 (shape a) ∧
    ndim out = 2%nat ∧
    (ndim a = 3%nat ∨ wf_ndarray a → wf_ndarray out).
Proof.
  intros Hd [Hn|(h & k & n & Hsh & Hn)].
  - exists (astype_of a). split; [by apply rgbToGrayScratch_2d|].
    unfold ndim in Hn. destruct (shape a) as [|h [|k [|? ?]]] eqn:Hsh; try done.
    unfold astype_of, with_data, wf_ndarray, ndim. simpl. rewrite Hsh.
    split_and!; try done. intros [?|Hwf]; [done|].
    by rewrite length_fmap.
  - exists (gray_of a h k n).
    split; [by apply (rgbToGrayScratch_3d_more_channels self img a h k n)|].
    rewrite Hsh. unfold wf_ndarray, ndim. simpl.
    split_and!; try done. intros _. rewrite length_fmap, length_seq. lia.
Qed.

Lemma rgbToGrayScratch_result_shape_witness :
  let a := {| shape := [1%nat; 1%nat; 4%nat]; data := [1; 2; 3; 4] |} in
  let w := extend empty_world a in
  denotes (H := exact_numpy) w (PyNdarray 0%nat) a ∧
  converts a ∧
  ∃ out,
    cannyLaneDetector.rgbToGrayScratch (H := exact_numpy) detector (PyNdarray 0%nat) w
    = (Ok (length (heap w)), extend w out) ∧
    shape out = take 2 (shape a) ∧
    ndim out = 2%nat ∧
    (ndim a = 3%nat ∨ wf_ndarray a → wf_ndarray out).
Proof.
  intros a w.
  assert (converts a) as Hc by (right; exists 1%nat, 1%nat, 4%nat; split; [reflexivity | lia]).
  split_and!; [reflexivity | exact Hc |].
  exact (rgbToGrayScratch_result_shape (H := exact_numpy)
           detector (PyNdarray 0%nat) a w eq_refl Hc).
Defined.



Lemma rgbToGrayScratch_result_shape_aux `{Numpy} self img a w :
  denotes w img a → converts a →
  ∃ out, cannyLaneDetector.rgbToGrayScratch self img w
         = (Ok (length (heap w)), extend w out) ∧ ndim out = 2%nat.
Proof.
  intros Hd [Hn|(h & k & n & Hsh & Hn)].
  - exists (astype_of a). split; [by apply rgbToGrayScratch_2d | done].
  - exists (gray_of a h k n).
    split; [by apply (rgbToGrayScratch_3d_more_channels self img a h k n) | done].
Qed.

(** X11: converting twice changes nothing more: when storing as float32 a
    value that is already float32 gives it back, the converter applied to
    its own result on a grid returns a second new array equal to the
    first. *)
Theorem rgbToGrayScratch_twice `{Numpy} self img a w :
  (∀ x, float32 (float32 x) = float32 x) →
  denotes w img a →
  ndim a = 2%nat →
  ∃ out,
    (gray <- cannyLaneDetector.rgbToGrayScratch self img ;;
     cannyLaneDetector.rgbToGrayScratch self (PyNdarray gray)) w
    = (Ok (S (length (heap w))), extend (extend w out) out) ∧
    cannyLaneDetector.rgbToGrayScratch self img w
    = (Ok (length (heap w)), extend w out).
Proof.
  intros Hidem Hd Hn. exists (astype_of a).
  pose proof (rgbToGrayScratch_2d self img a w Hd Hn) as Hfirst.
  split; [|done]. step ltac:(exact Hfirst).
  rewrite (rgbToGrayScratch_2d self _ (astype_of a)); [| apply heap_extend | done].
  simpl. rewrite length_app, Nat.add_1_r. do 2 f_equal.
  unfold astype_of, with_data. simpl. f_equal.
  rewrite <- list_fmap_compose. apply list_fmap_ext. intros _ x _. apply Hidem.
Qed.

Lemma rgbToGrayScratch_twice_witness :
  let a := {| shape := [1%nat; 2%nat]; data := [0; 255] |} in
  let w := extend empty_world a in
  (∀ x, float32 (Numpy := exact_numpy) (float32 (Numpy := exact_numpy) x)
        = float32 (Numpy := exact_numpy) x) ∧
  denotes (H := exact_numpy) w (PyNdarray 0%nat) a ∧
  ndim a = 2%nat ∧
  ∃ out,
    (gray <- cannyLaneDetector.rgbToGrayScratch (H := exact_numpy) detector (PyNdarray 0%nat) ;;
     cannyLaneDetector.rgbToGrayScratch (H := exact_numpy) detector (PyNdarray gray)) w
    = (Ok (S (length (heap w))), extend (extend w out) out) ∧
    cannyLaneDetector.rgbToGrayScratch (H := exact_numpy) detector (PyNdarray 0%nat) w
    = (Ok (length (heap w)), extend w out).
Proof.
  intros a w. split_and!; [reflexivity | reflexivity | reflexivity |].
  exact (rgbToGrayScratch_twice (H := exact_numpy) detector (PyNdarray 0%nat) a w
           (λ x, eq_refl) eq_refl eq_refl).
Defined.

(** ** The stages in sequence *)

(** X12: the converter and the Gaussian stage compose: whenever
    [rgbToGrayScratch] returns, [applyGaussianBlurScratch] accepts what it
    returned, for every sigma: the check of the number of dimensions does
    not fire, and the stage does what [createGaussianKernel] does in the
    world the converter left. *)
Theorem gray_then_blur `{Numpy} self img a sigma w :
  denotes w img a →
  converts a →
  ∃ out,
    cannyLaneDetector.rgbToGrayScratch self img w
    = (Ok (length (heap w)), extend w out) ∧
    (gray <- cannyLaneDetector.rgbToGrayScratch self img ;;
     cannyLaneDetector.applyGaussianBlurScratch self gray sigma) w
    = helperFunction.createGaussianKernel (cannyLaneDetector.utils self) sigma
        (extend w out).
Proof.
  intros Hd Hc.
  destruct (rgbToGrayScratch_result_shape_aux self img a w Hd Hc) as (out & Hrun & Hdim).
  exists out. split; [done|]. step ltac:(exact Hrun).
  apply (applyGaussianBlurScratch_2d self _ out); [apply heap_extend | done].
Qed.

Lemma gray_then_blur_witness :
  let a := {| shape := [1%nat; 2%nat]; data := [0; 255] |} in
  let w := extend empty_world a in
  denotes (H := exact_numpy) w (PyNdarray 0%nat) a ∧
  converts a ∧
  ∃ out,
    cannyLaneDetector.rgbToGrayScratch (H := exact_numpy) detector (PyNdarray 0%nat) w
    = (Ok (length (heap w)), extend w out) ∧
    (gray <- cannyLaneDetector.rgbToGrayScratch (H := exact_numpy) detector (PyNdarray 0%nat) ;;
     cannyLaneDetector.applyGaussianBlurScratch detector gray 1) w
    = helperFunction.createGaussianKernel (cannyLaneDetector.utils detector) 1
        (extend w out).
Proof.
  intros a w.
  assert (converts a) as Hc by (left; reflexivity).
  split_and!; [reflexivity | exact Hc |].
  exact (gray_then_blur (H := exact_numpy) detector (PyNdarray 0%nat) a 1 w eq_refl Hc).
Defined.

(** X13: on 2-dimensional inputs the Gaussian stage ignores the image: for
    any two grids of the same world, of whatever shapes and contents, and
    any sigma, the two calls give the same result (the same kernel or the
    same exception) and the same world, namely those of
    [createGaussianKernel]. *)
Theorem applyGaussianBlurScratch_ignores_image self img1 img2 a1 a2 sigma w :
  heap w !! img1 = Some a1 → ndim a1 = 2%nat →
  heap w !! img2 = Some a2 → ndim a2 = 2%nat →
  cannyLaneDetector.applyGaussianBlurScratch self img1 sigma w
  = cannyLaneDetector.applyGaussianBlurScratch self img2 sigma w ∧
  cannyLaneDetector.applyGaussianBlurScratch self img1 sigma w
  = helperFunction.createGaussianKernel (cannyLaneDetector.utils self) sigma w.
Proof.
  intros H1 Hn1 H2 Hn2.
  rewrite (applyGaussianBlurScratch_2d self img1 a1) by done.
  by rewrite (applyGaussianBlurScratch_2d self img2 a2) by done.
Qed.

Lemma applyGaussianBlurScratch_ignores_image_witness :
  let a1 := {| shape := [1%nat; 2%nat]; data := [0; 255] |} in
  let a2 := {| shape := [2%nat; 1%nat]; data := [7; 7] |} in
  let w := extend (extend empty_world a1) a2 in
  heap w !! 0%nat = Some a1 ∧ ndim a1 = 2%nat ∧
  heap w !! 1%nat = Some a2 ∧ ndim a2 = 2%nat ∧
  cannyLaneDetector.applyGaussianBlurScratch detector 0%nat 1 w
  = cannyLaneDetector.applyGaussianBlurScratch detector 1%nat 1 w ∧
  cannyLaneDetector.applyGaussianBlurScratch detector 0%nat 1 w
  = helperFunction.createGaussianKernel (cannyLaneDetector.utils detector) 1 w.
Proof.
  intros a1 a2 w.
  split_and!; [reflexivity | reflexivity | reflexivity | reflexivity | |];
    apply (applyGaussianBlurScratch_ignores_image detector 0%nat 1%nat a1 a2 1 w
             eq_refl eq_refl eq_refl eq_refl).
Defined.

(** ** The OpenCV wrappers *)

Section Wrappers.
Context `{OpenCV}.

Lemma readImg_found self path a w :
  imread path = Some a →
  cannyLaneDetector.readImg self path w
  = (Returned (Some (length (heap w))), extend w a).
Proof.
  intros Ha. unfold cannyLaneDetector.readImg, try_except, bindT, cv_imread.
  by rewrite Ha.
Qed.

Lemma readImg_missing self path w :
  imread path = None →
  cannyLaneDetector.readImg self path w
  = (Returned None,
     printed w ("[ERROR] Image not found or failed to load:" ++ path)%string).
Proof.
  intros Ha. unfold cannyLaneDetector.readImg, try_except, bindT, cv_imread.
  by rewrite Ha.
Qed.

Lemma rgbToGray_None self w :
  cannyLaneDetector.rgbToGray self None w
  = (Returned None, printed w "[Unexpected Error] Input image is None").
Proof. reflexivity. Qed.

Lemma rgbToGray_converted self l a gray w :
  heap w !! l = Some a → cvtColor_BGR2GRAY a = inr gray →
  cannyLaneDetector.rgbToGray self (Some l) w
  = (Returned (Some (length (heap w))), extend w gray).
Proof.
  intros Hl Hg.
  unfold cannyLaneDetector.rgbToGray, try_except, bindT, cv_cvtColor, bindT, liftT, load.
  by rewrite Hl, Hg.
Qed.

Lemma rgbToGray_cv_error self l a msg w :
  heap w !! l = Some a → cvtColor_BGR2GRAY a = inl msg →
  cannyLaneDetector.rgbToGray self (Some l) w
  = (Returned None, printed w ("[OpenCV Error] " ++ msg)%string).
Proof.
  intros Hl Hg.
  unfold cannyLaneDetector.rgbToGray, try_except, bindT, cv_cvtColor, bindT, liftT, load.
  by rewrite Hl, Hg.
Qed.
End Wrappers.

(** X14: [readImg] never raises: the FileNotFoundError it raises for a file
    that OpenCV cannot load is caught inside it. For such a path it prints
    the line "[ERROR] Image not found or failed to load:<path>" and returns
    None, with no array created; for a path OpenCV loads it prints nothing
    and returns the image as a new array. *)
Theorem readImg_never_raises `{OpenCV} self path w :
  (∀ e, (cannyLaneDetector.readImg self path w).1 ≠ Threw e) ∧
  (imread path = None →
   cannyLaneDetector.readImg self path w
   = (Returned None,
      printed w ("[ERROR] Image not found or failed to load:" ++ path)%string)) ∧
  (∀ a, imread path = Some a →
   cannyLaneDetector.readImg self path w
   = (Returned (Some (length (heap w))), extend w a)).
Proof.
  split_and!.
  - intros e. destruct (imread path) as [a|] eqn:Ha.
    + by rewrite (readImg_found self path a).
    + by rewrite readImg_missing.
  - apply readImg_missing.
  - intros a. apply readImg_found.
Qed.

(** X15: [rgbToGray] never raises, whatever its argument is and whatever
    OpenCV does: every exception is caught, a line is printed and None is
    returned. On None the line is "[Unexpected Error] Input image is None";
    when cvtColor fails it is "[OpenCV Error] <message>"; when cvtColor
    succeeds nothing is printed and the converted image is returned as a
    new array. No array that existed before the call is changed. *)
Theorem rgbToGray_never_raises `{OpenCV} self img w :
  (∀ e, (cannyLaneDetector.rgbToGray self img w).1 ≠ Threw e) ∧
  (img = None →
   cannyLaneDetector.rgbToGray self img w
   = (Returned None, printed w "[Unexpected Error] Input image is None")) ∧
  (∀ l a msg, img = Some l → heap w !! l = Some a → cvtColor_BGR2GRAY a = inl msg →
   cannyLaneDetector.rgbToGray self img w
   = (Returned None, printed w ("[OpenCV Error] " ++ msg)%string)) ∧
  (∀ l a gray, img = Some l → heap w !! l = Some a → cvtColor_BGR2GRAY a = inr gray →
   cannyLaneDetector.rgbToGray self img w
   = (Returned (Some (length (heap w))), extend w gray)) ∧
  (∀ l b, heap w !! l = Some b →
   heap (cannyLaneDetector.rgbToGray self img w).2 !! l = Some b).
Proof.
  assert (∀ l, heap w !! l = None →
            cannyLaneDetector.rgbToGray self (Some l) w = (Stuck, w)) as Hstuck.
  { intros l Hl.
    unfold cannyLaneDetector.rgbToGray, try_except, bindT, cv_cvtColor, bindT, liftT, load.
    by rewrite Hl. }
  split_and!.
  - intros e. destruct img as [l|]; [|done].
    destruct (heap w !! l) as [a|] eqn:Hl; [|by rewrite Hstuck].
    destruct (cvtColor_BGR2GRAY a) as [msg|gray] eqn:Hg.
    + by rewrite (rgbToGray_cv_error self l a msg).
    + by rewrite (rgbToGray_converted self l a gray).
  - intros ->. apply rgbToGray_None.
  - intros l a msg ->. apply rgbToGray_cv_error.
  - intros l a gray ->. apply rgbToGray_converted.
  - intros l0 b Hb. destruct img as [l|]; [|done].
    destruct (heap w !! l) as [a|] eqn:Hl; [|by rewrite Hstuck].
    destruct (cvtColor_BGR2GRAY a) as [msg|gray] eqn:Hg.
    + by rewrite (rgbToGray_cv_error self l a msg).
    + rewrite (rgbToGray_converted self l a gray) by done. by apply heap_extend_old.
Qed.

(** X16: a missing file goes through [readImg] and [rgbToGray] without an
    exception: for a path that OpenCV cannot load, [rgbToGray(readImg(path))]
    returns None and prints two lines, the one of [readImg] and then
    "[Unexpected Error] Input image is None". *)
Theorem read_then_gray_missing_file `{OpenCV} self path w :
  imread path = None →
  (img <~ cannyLaneDetector.readImg self path ;;
   cannyLaneDetector.rgbToGray self img) w
  = (Returned None,
     printed
       (printed w ("[ERROR] Image not found or failed to load:" ++ path)%string)
       "[Unexpected Error] Input image is None").
Proof.
  intros Ha. unfold bindT. by rewrite readImg_missing.
Qed.

Lemma read_then_gray_missing_file_witness :
  imread (OpenCV := no_opencv) "road.png" = None ∧
  (img <~ cannyLaneDetector.readImg (H := no_opencv) detector "road.png" ;;
   cannyLaneDetector.rgbToGray (H := no_opencv) detector img) empty_world
  = (Returned None,
     printed
       (printed empty_world "[ERROR] Image not found or failed to load:road.png")
       "[Unexpected Error] Input image is None").
Proof.
  split; [reflexivity|].
  exact (read_then_gray_missing_file (H := no_opencv) detector "road.png" empty_world eq_refl).
Defined.

(** X17: a missing file makes the scratch converter raise: for a path that
    OpenCV cannot load, [rgbToGrayScratch(readImg(path))] raises the
    TypeError of the converter, after the line of [readImg] is printed. *)
Theorem read_then_gray_scratch_missing_file `{OpenCV} `{Numpy} self path w :
  imread path = None →
  (img <~ cannyLaneDetector.readImg self path ;;
   liftT (cannyLaneDetector.rgbToGrayScratch self (to_pyobj img))) w
  = (Threw (Builtin (TypeError
       "Input must be a Numpy array or a list convertible to a Numpy array.")),
     printed w ("[ERROR] Image not found or failed to load:" ++ path)%string).
Proof.
  intros Ha. unfold bindT. by rewrite readImg_missing.
Qed.

Lemma read_then_gray_scratch_missing_file_witness :
  imread (OpenCV := no_opencv) "road.png" = None ∧
  (img <~ cannyLaneDetector.readImg (H := no_opencv) detector "road.png" ;;
   liftT (cannyLaneDetector.rgbToGrayScratch (H := exact_numpy) detector (to_pyobj img)))
    empty_world
  = (Threw (Builtin (TypeError
       "Input must be a Numpy array or a list convertible to a Numpy array.")),
     printed empty_world "[ERROR] Image not found or failed to load:road.png").
Proof.
  split; [reflexivity|].
  exact (read_then_gray_scratch_missing_file (H := no_opencv) (H0 := exact_numpy)
           detector "road.png" empty_world eq_refl).
Defined.

(** X18: an image of three channels that [readImg] loads cannot be
    converted by the scratch converter: whatever its height, width and
    samples, [rgbToGrayScratch(readImg(path))] raises IndexError (index 3 on
    an axis of size 3); the loaded image stays in the heap, unchanged. *)
Theorem read_then_gray_scratch_colour_image `{OpenCV} `{Numpy} self path a (h k : nat) w :
  imread path = Some a →
  shape a = [h; k; 3%nat] →
  (img <~ cannyLaneDetector.readImg self path ;;
   liftT (cannyLaneDetector.rgbToGrayScratch self (to_pyobj img))) w
  = (Threw (Builtin (IndexError 3 2 3)), extend w a).
Proof.
  intros Ha Hsh. unfold bindT. rewrite (readImg_found self path a) by done.
  unfold liftT. simpl to_pyobj.
  rewrite (rgbToGrayScratch_3d_few_channels self _ a h k 3); [done | | done | lia].
  apply heap_extend.
Qed.

Lemma read_then_gray_scratch_colour_image_witness :
  imread (OpenCV := one_pixel_opencv) "road.png" = Some (uniform_image 1 1 7) ∧
  shape (uniform_image 1 1 7) = [1%nat; 1%nat; 3%nat] ∧
  (img <~ cannyLaneDetector.readImg (H := one_pixel_opencv) detector "road.png" ;;
   liftT (cannyLaneDetector.rgbToGrayScratch (H := exact_numpy) detector (to_pyobj img)))
    empty_world
  = (Threw (Builtin (IndexError 3 2 3)), extend empty_world (uniform_image 1 1 7)).
Proof.
  split_and!; [reflexivity | reflexivity |].
  exact (read_then_gray_scratch_colour_image (H := one_pixel_opencv) (H0 := exact_numpy)
           detector "road.png" (uniform_image 1 1 7) 1 1 empty_world eq_refl eq_refl).
Defined.

(** * Binary64 arithmetic: the side of the kernel

    What [2 * np.ceil(sigma) + 1] is as a float, from the specification of
    the IEEE operations ([SpecFloat]): an integer of at most 53 bits is a
    float, doubling it is exact, and adding 1 is exact below 2^53. *)

Section Binary64Arithmetic.
Import F64.
Local Open Scope Z_scope.

Lemma f64_digits_log2 (p : positive) : Z.pos (digits2_pos p) = Z.log2 (Z.pos p) + 1.
Proof.
  assert (∀ q, digits2_pos q = Pos.size q) as Hsize
    by (intros q; induction q; simpl; congruence).
  destruct p; simpl; rewrite ?Hsize; lia.
Qed.

Lemma f64_digits_bounds (p : positive) :
  2 ^ (Z.pos (digits2_pos p) - 1) ≤ Z.pos p < 2 ^ Z.pos (digits2_pos p).
Proof.
  rewrite f64_digits_log2. replace (Z.log2 (Z.pos p) + 1 - 1) with (Z.log2 (Z.pos p)) by lia.
  replace (Z.log2 (Z.pos p) + 1) with (Z.succ (Z.log2 (Z.pos p))) by lia.
  apply Z.log2_spec. lia.
Qed.

Lemma f64_digits_unique (p : positive) (d : Z) :
  2 ^ (d - 1) ≤ Z.pos p < 2 ^ d → Z.pos (digits2_pos p) = d.
Proof.
  intros Hd. rewrite f64_digits_log2.
  assert (0 ≤ d - 1).
  { destruct (decide (0 ≤ d - 1)) as [|Hn]; [done|].
    assert (d ≤ 0) by lia. 
    assert (2 ^ d ≤ 1).
    { destruct (decide (d = 0)) as [->|]; [done|]. rewrite Z.pow_neg_r by lia. lia. }
    lia. }
  rewrite (Z.log2_unique (Z.pos p) (d - 1)); [lia | done |].
  replace (Z.succ (d - 1)) with d by lia. done.
Qed.

Lemma f64_digits_shift (p q : positive) (n : Z) :
  0 ≤ n → Z.pos q = Z.pos p * 2 ^ n →
  Z.pos (digits2_pos q) = Z.pos (digits2_pos p) + n.
Proof.
  intros Hn Hq. apply f64_digits_unique. rewrite Hq.
  pose proof (f64_digits_bounds p) as [Hl Hu].
  assert (0 < 2 ^ n) by (apply Z.pow_pos_nonneg; lia).
  replace (Z.pos (digits2_pos p) + n - 1) with (Z.pos (digits2_pos p) - 1 + n) by lia.
  rewrite !Z.pow_add_r by lia. nia.
Qed.

Lemma f64_iter_pos_nat {A} (f : A → A) (n : positive) (x : A) :
  SpecFloat.iter_pos f n x = Nat.iter (Pos.to_nat n) f x.
Proof.
  revert x. induction n as [n IH|n IH|]; intros x; cbn [SpecFloat.iter_pos].
  - rewrite !IH, Pos2Nat.inj_xI.
    replace (S (2 * Pos.to_nat n))%nat with (Pos.to_nat n + (Pos.to_nat n + 1))%nat by lia.
    rewrite !Nat.iter_add. done.
  - rewrite !IH, Pos2Nat.inj_xO.
    replace (2 * Pos.to_nat n)%nat with (Pos.to_nat n + Pos.to_nat n)%nat by lia.
    by rewrite Nat.iter_add.
  - done.
Qed.

Lemma f64_shr_1_m (mrs : shr_record) :
  0 ≤ shr_m mrs → shr_m (shr_1 mrs) = shr_m mrs / 2.
Proof.
  destruct mrs as [m r s]. cbn [shr_m shr_1]. intros Hm.
  destruct m as [|[p|p|]|p]; cbn [shr_m]; try done.
  - apply (Z.div_unique _ 2 _ 1); lia.
  - apply (Z.div_unique _ 2 _ 0); lia.
Qed.

Lemma f64_shr_m (n : nat) (mrs : shr_record) :
  0 ≤ shr_m mrs → shr_m (Nat.iter n shr_1 mrs) = shr_m mrs / 2 ^ Z.of_nat n.
Proof.
  intros Hm. induction n as [|n IH].
  - simpl. by rewrite Z.div_1_r.
  - assert (0 < 2 ^ Z.of_nat n) as Hpos by (apply Z.pow_pos_nonneg; lia).
    rewrite Nat2Z.inj_succ, Z.pow_succ_r by lia. simpl.
    rewrite f64_shr_1_m, IH.
    + rewrite Z.div_div by lia. f_equal. lia.
    + rewrite IH. apply Z.div_pos; lia.
Qed.

Lemma f64_shr_exact (n : nat) (m : Z) :
  0 ≤ m →
  Nat.iter n shr_1 {| shr_m := m * 2 ^ Z.of_nat n; shr_r := false; shr_s := false |}
  = {| shr_m := m; shr_r := false; shr_s := false |}.
Proof.
  intros Hm. revert m Hm. induction n as [|n IH]; intros m Hm.
  - simpl. f_equal. lia.
  - rewrite Nat.iter_succ_r.
    assert (shr_1 {| shr_m := m * 2 ^ Z.of_nat (S n); shr_r := false; shr_s := false |}
            = {| shr_m := m * 2 ^ Z.of_nat n; shr_r := false; shr_s := false |}) as ->.
    { rewrite Nat2Z.inj_succ, Z.pow_succ_r by lia.
      assert (0 ≤ m * 2 ^ Z.of_nat n) as Hge
        by (apply Z.mul_nonneg_nonneg; [done | apply Z.pow_nonneg; lia]).
      replace (m * (2 * 2 ^ Z.of_nat n)) with (2 * (m * 2 ^ Z.of_nat n)) by lia.
      destruct (m * 2 ^ Z.of_nat n) as [|p|p]; [done | done | lia]. }
    by apply IH.
Qed.

Lemma f64_shr_spec (mrs mrs' : shr_record) (e e' n : Z) :
  0 ≤ shr_m mrs → 0 ≤ n → shr mrs e n = (mrs', e') →
  shr_m mrs' = shr_m mrs / 2 ^ n ∧ e' = e + n.
Proof.
  intros Hm Hn. destruct n as [|p|p]; [| |lia]; cbn [shr].
  - intros [= <- <-]. rewrite Z.div_1_r. lia.
  - intros [= <- <-]. rewrite f64_iter_pos_nat, f64_shr_m by done.
    by rewrite positive_nat_Z.
Qed.

Lemma f64_shr_exact_spec (m n e : Z) :
  0 ≤ m → 0 ≤ n →
  shr {| shr_m := m * 2 ^ n; shr_r := false; shr_s := false |} e n
  = ({| shr_m := m; shr_r := false; shr_s := false |}, e + n).
Proof.
  intros Hm Hn. destruct n as [|p|p]; [| |lia]; cbn [shr].
  - f_equal; [f_equal|]; lia.
  - rewrite f64_iter_pos_nat. rewrite <- (positive_nat_Z p) at 1.
    by rewrite f64_shr_exact.
Qed.

Lemma f64_shr_fexp_spec (M : positive) (ex : Z) (mrs : shr_record) (e : Z) :
  53 ≤ Z.pos (digits2_pos M) → -1074 ≤ Z.pos (digits2_pos M) + ex - 53 →
  shr_fexp prec emax (Z.pos M) ex loc_Exact = (mrs, e) →
  2 ^ 52 ≤ shr_m mrs ∧ shr_m mrs ≤ Z.pos M ∧ e = ex + (Z.pos (digits2_pos M) - 53).
Proof.
  intros Hd He. unfold shr_fexp. cbn [Zdigits2 shr_record_of_loc].
  set (d := Z.pos (digits2_pos M)) in *.
  assert (fexp prec emax (d + ex) - ex = d - 53) as ->
    by (unfold fexp, emin, prec, emax; lia).
  intros Hshr. apply f64_shr_spec in Hshr as [Hm ->]; [|cbn; lia|lia].
  cbn [shr_m] in Hm. rewrite Hm.
  assert (0 < 2 ^ (d - 53)) as Hpos by (apply Z.pow_pos_nonneg; lia).
  split_and!; [| |done].
  - apply Z.div_le_lower_bound; [done|].
    rewrite <- Z.pow_add_r by lia. replace (d - 53 + 52) with (d - 1) by lia.
    apply (f64_digits_bounds M).
  - apply Z.div_le_upper_bound; [done|]. nia.
Qed.

Lemma f64_round_exact (sx : bool) (m0 M : positive) (n ex : Z) :
  Z.pos (digits2_pos m0) = 53 → 0 ≤ n → Z.pos M = Z.pos m0 * 2 ^ n → -1074 ≤ ex + n →
  binary_round_aux prec emax sx (Z.pos M) ex loc_Exact
  = if ex + n <=? 971 then S754_finite sx m0 (ex + n) else S754_infinity sx.
Proof.
  intros Hd Hn HM He.
  pose proof (f64_digits_shift m0 M n Hn HM) as HdM.
  unfold binary_round_aux, shr_fexp. cbn [Zdigits2 shr_record_of_loc].
  rewrite HdM, Hd.
  assert (fexp prec emax (53 + n + ex) - ex = n) as ->
    by (unfold fexp, emin, prec, emax; lia).
  rewrite HM, f64_shr_exact_spec by lia.
  cbn [shr_m loc_of_shr_record round_nearest_even Zdigits2 shr_record_of_loc].
  rewrite Hd.
  assert (fexp prec emax (53 + (ex + n)) - (ex + n) = 0) as ->
    by (unfold fexp, emin, prec, emax; lia).
  cbn [shr shr_m]. done.
Qed.

Lemma f64_round_large (sx : bool) (M : positive) (ex : Z) :
  53 ≤ Z.pos (digits2_pos M) → -1074 ≤ Z.pos (digits2_pos M) + ex - 53 →
  binary_round_aux prec emax sx (Z.pos M) ex loc_Exact = S754_infinity sx ∨
  ∃ m e, binary_round_aux prec emax sx (Z.pos M) ex loc_Exact = S754_finite sx m e ∧
         Z.pos (digits2_pos M) + ex - 53 ≤ e.
Proof.
  intros Hd He. unfold binary_round_aux.
  destruct (shr_fexp prec emax (Z.pos M) ex loc_Exact) as [mrs1 e1] eqn:H1.
  apply f64_shr_fexp_spec in H1 as (Hm1 & _ & ->); [|done..].
  set (r := round_nearest_even (shr_m mrs1) (loc_of_shr_record mrs1)).
  assert (shr_m mrs1 ≤ r) as Hr.
  { unfold r, round_nearest_even.
    destruct (loc_of_shr_record mrs1) as [|[]]; try lia. destruct (Z.even _); lia. }
  assert (0 < 2 ^ 52) by done.
  destruct r as [|pr|pr] eqn:Hpr; [lia| |lia].
  destruct (shr_fexp prec emax (Z.pos pr) (ex + (Z.pos (digits2_pos M) - 53)) loc_Exact)
    as [mrs2 e2] eqn:H2.
  assert (53 ≤ Z.pos (digits2_pos pr)) as Hdr.
  { pose proof (f64_digits_bounds pr) as [_ Hu].
    destruct (decide (53 ≤ Z.pos (digits2_pos pr))) as [|Hlt]; [done|].
    assert (2 ^ Z.pos (digits2_pos pr) ≤ 2 ^ 52) by (apply Z.pow_le_mono_r; lia). lia. }
  apply f64_shr_fexp_spec in H2 as (Hm2 & _ & ->); [|lia..].
  destruct (shr_m mrs2) as [|p2|p2]; [lia| |lia].
  destruct (_ <=? _); [right|by left].
  eexists _, _. split; [done|]. lia.
Qed.

Lemma f64_iter_xO (p d : positive) : Z.pos (Pos.iter xO p d) = Z.pos p * 2 ^ Z.pos d.
Proof.
  induction d as [|d IH] using Pos.peano_ind.
  - simpl. lia.
  - rewrite Pos.iter_succ, Pos2Z.inj_xO, IH, Pos2Z.inj_succ, Z.pow_succ_r by lia. lia.
Qed.

Lemma f64_shl_align (m : positive) (e e' : Z) :
  e' ≤ e → ∃ m', shl_align m e e' = (m', e') ∧ Z.pos m' = Z.pos m * 2 ^ (e - e').
Proof.
  intros He. unfold shl_align.
  destruct (e' - e) as [|d|d] eqn:Hd; [|lia|].
  - exists m. assert (e' = e) as -> by lia. rewrite Z.sub_diag. split; [done|lia].
  - eexists. split; [done|]. rewrite f64_iter_xO. do 2 f_equal. lia.
Qed.

Lemma f64_shl_align_id (m : positive) (e e' : Z) : e ≤ e' → shl_align m e e' = (m, e).
Proof. intros He. unfold shl_align. destruct (e' - e) eqn:Hd; [done|done|lia]. Qed.

(** An integer of at most 53 bits, scaled by a power of two, is rounded to
    itself. *)
Lemma f64_round_int (sx : bool) (N M : positive) (j : Z) :
  0 ≤ j → Z.pos M = Z.pos N * 2 ^ j → Z.pos (digits2_pos N) ≤ 53 →
  ∃ m0, binary_round prec emax sx M (- j)
        = S754_finite sx m0 (Z.pos (digits2_pos N) - 53) ∧
        Z.pos m0 = Z.pos N * 2 ^ (53 - Z.pos (digits2_pos N)).
Proof.
  intros Hj HM Hd. set (dN := Z.pos (digits2_pos N)) in *.
  assert (1 ≤ dN) by (unfold dN; lia).
  pose proof (f64_digits_shift N M j Hj HM) as HdM. fold dN in HdM.
  unfold binary_round. rewrite HdM.
  assert (fexp prec emax (dN + j + - j) = dN - 53) as ->
    by (unfold fexp, emin, prec, emax; lia).
  assert (0 < Z.pos N * 2 ^ (53 - dN)) as Hpos
    by (apply Z.mul_pos_pos; [lia | apply Z.pow_pos_nonneg; lia]).
  destruct (Z.pos N * 2 ^ (53 - dN)) as [|m0|m0] eqn:Hm0; [lia| |lia].
  assert (Z.pos (digits2_pos m0) = 53) as Hd0.
  { rewrite (f64_digits_shift N m0 (53 - dN)) by (done || lia). fold dN. lia. }
  exists m0. split; [|done].
  destruct (decide (dN - 53 ≤ - j)) as [Hle|Hgt].
  - destruct (f64_shl_align M (- j) (dN - 53) Hle) as (mz & -> & Hmz).
    assert (mz = m0) as ->.
    { assert (Z.pos mz = Z.pos m0) as Heq; [|by injection Heq].
      rewrite Hmz, HM, <- Hm0, <- Z.mul_assoc, <- Z.pow_add_r by lia.
      do 2 f_equal. lia. }
    rewrite (f64_round_exact sx m0 m0 0 (dN - 53)); [| done | lia | lia | lia].
    rewrite Z.add_0_r. by rewrite (proj2 (Z.leb_le _ _)) by lia.
  - rewrite f64_shl_align_id by lia.
    rewrite (f64_round_exact sx m0 M (j - (53 - dN)) (- j)); [| done | lia | | lia].
    + replace (- j + (j - (53 - dN))) with (dN - 53) by lia.
      by rewrite (proj2 (Z.leb_le _ _)) by lia.
    + rewrite HM, <- Hm0, <- Z.mul_assoc, <- Z.pow_add_r by lia.
      do 2 f_equal. lia.
Qed.

(** The integer part of such a float is that integer. *)
Lemma f64_truncate_int (N m0 : positive) :
  Z.pos (digits2_pos N) ≤ 53 →
  Z.pos m0 = Z.pos N * 2 ^ (53 - Z.pos (digits2_pos N)) →
  (if 0 <=? Z.pos (digits2_pos N) - 53
   then Z.pos m0 * 2 ^ (Z.pos (digits2_pos N) - 53)
   else Z.pos m0 / 2 ^ (- (Z.pos (digits2_pos N) - 53))) = Z.pos N.
Proof.
  intros Hd Hm0. set (dN := Z.pos (digits2_pos N)) in *.
  destruct (0 <=? dN - 53) eqn:He.
  - apply Z.leb_le in He. assert (dN = 53) as Heq by lia.
    rewrite Hm0, Heq. simpl. lia.
  - rewrite Hm0. replace (- (dN - 53)) with (53 - dN) by lia.
    apply Z.div_mul. apply Z.pow_nonzero; lia.
Qed.

Lemma f64_float_of_pos (C : positive) :
  Z.pos (digits2_pos C) ≤ 53 →
  ∃ m0, Prim2SF (float_of_Z (Z.pos C))
        = S754_finite false m0 (Z.pos (digits2_pos C) - 53) ∧
        Z.pos m0 = Z.pos C * 2 ^ (53 - Z.pos (digits2_pos C)).
Proof.
  intros Hd.
  destruct (f64_round_int false C C 0) as (m0 & Hround & Hm0); [done | lia | done |].
  exists m0. split; [|done].
  unfold float_of_Z. cbn [binary_normalize].
  change 0 with (- 0) at 1. rewrite Hround.
  apply Prim2SF_SF2Prim. cbn [SpecFloat.valid_binary]. unfold bounded, canonical_mantissa.
  rewrite (f64_digits_shift C m0 (53 - Z.pos (digits2_pos C))) by (done || lia).
  apply andb_true_iff. split; [apply Z.eqb_eq | apply Z.leb_le];
    unfold fexp, emin, prec, emax; lia.
Qed.

Lemma f64_valid_digits (s : bool) (m : positive) (e : Z) :
  valid_binary (S754_finite s m e) = true →
  Z.pos (digits2_pos m) ≤ 53 ∧ (-1074 < e → Z.pos (digits2_pos m) = 53).
Proof.
  cbn [SpecFloat.valid_binary]. unfold bounded, canonical_mantissa.
  intros [Hc _]%andb_true_iff. apply Z.eqb_eq in Hc.
  unfold fexp, emin, prec, emax in Hc. lia.
Qed.

(** The ceiling of a quotient of integers. *)
Lemma f64_Zceil_quotient (a b : Z) :
  0 < b →
  Zceil (IZR a / IZR b) = if a mod b =? 0 then a / b else a / b + 1.
Proof.
  intros Hb. pose proof (Z.div_mod a b ltac:(lia)) as Hdm.
  pose proof (Z.mod_pos_bound a b Hb) as Hr.
  set (q := a / b) in *. set (r := a mod b) in *.
  assert (0 < IZR b)%R as HbR by (by apply IZR_lt).
  assert (IZR a = IZR b * IZR q + IZR r)%R as Ha
    by (by rewrite Hdm, plus_IZR, mult_IZR).
  assert (0 <= IZR r < IZR b)%R as HrR by (split; [apply IZR_le | apply IZR_lt]; lia).
  assert (IZR a / IZR b = IZR q + IZR r / IZR b)%R as -> by (rewrite Ha; field; lra).
  assert (0 < / IZR b)%R as Hinv by (by apply Rinv_0_lt_compat).
  assert (IZR r / IZR b < 1)%R as Hfrac.
  { apply (Rmult_lt_reg_r (IZR b)); [done|]. unfold Rdiv.
    rewrite Rmult_assoc, Rinv_l, Rmult_1_r, Rmult_1_l by lra. lra. }
  apply Zceil_eq. destruct (r =? 0) eqn:Hr0.
  - apply Z.eqb_eq in Hr0. rewrite Hr0. unfold Rdiv. rewrite Rmult_0_l. lra.
  - apply Z.eqb_neq in Hr0.
    assert (0 < IZR r)%R by (apply IZR_lt; lia).
    assert (0 < IZR r / IZR b)%R by (unfold Rdiv; by apply Rmult_lt_0_compat).
    rewrite plus_IZR. lra.
Qed.

Lemma f64_small_digits (C : positive) : Z.pos C < 2 ^ 53 → Z.pos (digits2_pos C) ≤ 53.
Proof.
  intros HC. pose proof (f64_digits_bounds C) as [Hl _].
  destruct (decide (Z.pos (digits2_pos C) ≤ 53)) as [|Hgt]; [done|].
  assert (2 ^ 53 ≤ 2 ^ (Z.pos (digits2_pos C) - 1)) by (apply Z.pow_le_mono_r; lia).
  lia.
Qed.

(** What [np_ceil] returns. On a zero, an infinity, NaN and a float of
    exponent 0 or more, its argument; on a negative float above -1, -0.0;
    on any other float, the float of an integer C of its sign, with
    1 <= C <= 2^52, which for a positive float is the ceiling of the real
    number it denotes. *)
Lemma f64_ceil_cases (sigma : float) :
  (Prim2SF (np_ceil sigma) = Prim2SF sigma ∧
   ∀ s m e, Prim2SF sigma = S754_finite s m e → 0 ≤ e ∧ Z.pos (digits2_pos m) = 53) ∨
  (∃ m e, Prim2SF sigma = S754_finite true m e ∧ e < 0 ∧ Z.pos m < 2 ^ (- e) ∧
          Prim2SF (np_ceil sigma) = S754_zero true) ∨
  (∃ s m e C m0, Prim2SF sigma = S754_finite s m e ∧ e < 0 ∧
          (s = true → 2 ^ (- e) ≤ Z.pos m) ∧
          (s = false → Zceil (to_R sigma) = Z.pos C) ∧
          Prim2SF (np_ceil sigma) = S754_finite s m0 (Z.pos (digits2_pos C) - 53) ∧
          Z.pos m0 = Z.pos C * 2 ^ (53 - Z.pos (digits2_pos C)) ∧
          Z.pos C ≤ 2 ^ 52).
Proof.
  pose proof (Prim2SF_valid sigma) as Hvalid. unfold np_ceil, to_R.
  destruct (Prim2SF sigma) as [s|s| |s m e] eqn:Hsigma.
  - left. split; [done|]. intros ? ? ? [=].
  - left. split; [done|]. intros ? ? ? [=].
  - left. split; [done|]. intros ? ? ? [=].
  - apply f64_valid_digits in Hvalid as [Hd Hnormal].
    destruct (0 <=? e) eqn:He.
    + apply Z.leb_le in He. left. split; [done|].
      intros ? ? ? [= <- <- <-]. split; [done | apply Hnormal; lia].
    + apply Z.leb_gt in He. right.
      assert (0 < 2 ^ (- e)) as Hpow by (apply Z.pow_pos_nonneg; lia).
      assert (2 ≤ 2 ^ (- e)) as Hpow2.
      { change 2 with (2 ^ 1) at 1. apply Z.pow_le_mono_r; lia. }
      pose proof (f64_digits_bounds m) as [_ Hm].
      assert (Z.pos m < 2 ^ 53) as Hm53.
      { eapply Z.lt_le_trans; [exact Hm|]. apply Z.pow_le_mono_r; lia. }
      pose proof (f64_Zceil_quotient (Z.pos m) (2 ^ (- e)) Hpow) as Hceil.
      pose proof (Z.div_mod (Z.pos m) (2 ^ (- e)) ltac:(lia)) as Hdm.
      pose proof (Z.mod_pos_bound (Z.pos m) (2 ^ (- e)) Hpow) as Hr.
      set (q := Z.pos m / 2 ^ (- e)) in *. set (r := Z.pos m mod 2 ^ (- e)) in *.
      assert (0 ≤ q) by (apply Z.div_pos; lia).
      assert (q < 2 ^ 52) as Hq.
      { apply Z.div_lt_upper_bound; [done|]. change (2 ^ 53) with (2 * 2 ^ 52) in Hm53. nia. }
      assert (2 ^ 52 < 2 ^ 53) as Hlt by done.
      destruct s.
      * rewrite opp_spec. destruct q as [|C|C] eqn:HC; [| |lia].
        -- left. exists m, e. split_and!; [done | done | lia | reflexivity].
        -- destruct (f64_float_of_pos C) as (m0 & -> & Hm0); [apply f64_small_digits; lia|].
           right. exists true, m, e, C, m0. cbn [SFopp negb].
           split_and!; [done | done | intros _; nia | done | done | done | lia].
      * set (C := if r =? 0 then q else q + 1) in *.
        assert (1 ≤ C ≤ 2 ^ 52) as HC.
        { unfold C. destruct (r =? 0) eqn:Hr0; [apply Z.eqb_eq in Hr0|]; nia. }
        destruct C as [|C'|C'] eqn:HC'; [lia| |lia].
        destruct (f64_float_of_pos C') as (m0 & -> & Hm0); [apply f64_small_digits; lia|].
        right. exists false, m, e, C', m0.
        split_and!; [done | done | done | done | done | done | lia].
Qed.

Lemma f64_mul_two (s : bool) (m : positive) (e : Z) :
  Z.pos (digits2_pos m) = 53 → -1074 ≤ e + 1 →
  SFmul prec emax (S754_finite false 4503599627370496 (-51)) (S754_finite s m e)
  = if e + 1 <=? 971 then S754_finite s m (e + 1) else S754_infinity s.
Proof.
  intros Hd He. cbn [SFmul xorb].
  rewrite (f64_round_exact s m _ 52 (-51 + e)); [| done | lia | | lia].
  - by replace (-51 + e + 52) with (e + 1) by lia.
  - rewrite Pos2Z.inj_mul. change (2 ^ 52) with 4503599627370496. lia.
Qed.

Lemma f64_add_one (s : bool) (m : positive) (e : Z) :
  -52 ≤ e →
  SFadd prec emax (S754_finite s m e) (S754_finite false 4503599627370496 (-52))
  = binary_normalize prec emax
      (cond_Zopp s (Z.pos m * 2 ^ (e + 52)) + 2 ^ 52) (-52) false.
Proof.
  intros He. cbn [SFadd]. rewrite Z.min_r by lia.
  destruct (f64_shl_align m e (-52) He) as (m1 & -> & Hm1).
  rewrite f64_shl_align_id by lia. cbn [fst cond_Zopp].
  rewrite Hm1. replace (e - -52) with (e + 52) by lia. done.
Qed.

(** What [2 * c + 1] is for the float [c] of an integer: an infinity of the
    sign of [c], or a float of that sign whose integer part is 1 at least
    when it is negative, and 2^52 at least or exactly 2 C + 1 when [c] is
    the float of a positive integer C. *)
Lemma f64_side_of_integer (c : float) (s : bool) (m : positive) (e : Z) :
  Prim2SF c = S754_finite s m e →
  (0 ≤ e ∧ Z.pos (digits2_pos m) = 53) ∨
  (∃ C, e = Z.pos (digits2_pos C) - 53 ∧
        Z.pos m = Z.pos C * 2 ^ (53 - Z.pos (digits2_pos C)) ∧ Z.pos C ≤ 2 ^ 52) →
  Prim2SF (2 * c + 1) = S754_infinity s ∨
  ∃ m' e', Prim2SF (2 * c + 1) = S754_finite s m' e' ∧
    if s then 1 ≤ truncate m' e'
    else 2 ^ 52 ≤ truncate m' e' ∨
         ∃ C, e = Z.pos (digits2_pos C) - 53 ∧
              Z.pos m = Z.pos C * 2 ^ (53 - Z.pos (digits2_pos C)) ∧
              truncate m' e' = 2 * Z.pos C + 1.
Proof.
  intros Hc Hform.
  pose proof (Prim2SF_valid (2 * c + 1)) as Hvalid.
  rewrite add_spec, mul_spec, Hc in Hvalid |- *. unfold SF64add, SF64mul in Hvalid |- *.
  change (Prim2SF 2) with (S754_finite false 4503599627370496 (-51)) in Hvalid |- *.
  change (Prim2SF 1) with (S754_finite false 4503599627370496 (-52)) in Hvalid |- *.
  assert (∀ s m e, valid_binary (S754_finite s m e) = true → 0 ≤ e →
            2 ^ 52 ≤ truncate m e ∧ 1 ≤ truncate m e) as Hbig.
  { intros s0 m0 e0 [_ Hd]%f64_valid_digits He. specialize (Hd ltac:(lia)).
    pose proof (f64_digits_bounds m0) as [Hl _]. rewrite Hd in Hl.
    unfold truncate. rewrite (proj2 (Z.leb_le _ _)) by done.
    assert (1 ≤ 2 ^ e0) by (apply Z.lt_pred_le, Z.pow_pos_nonneg; lia).
    change (2 ^ (53 - 1)) with (2 ^ 52) in Hl. nia. }
  assert (∀ s (M : positive), 105 ≤ Z.pos (digits2_pos M) →
            valid_binary (binary_round prec emax s M (-52)) = true →
            binary_round prec emax s M (-52) = S754_infinity s ∨
            ∃ m e, binary_round prec emax s M (-52) = S754_finite s m e ∧
                   2 ^ 52 ≤ truncate m e ∧ 1 ≤ truncate m e) as Hlarge.
  { intros s0 M HdM. unfold binary_round.
    rewrite f64_shl_align_id by (unfold fexp, emin, prec, emax; lia).
    destruct (f64_round_large s0 M (-52)) as [-> | (m0 & e0 & -> & He)]; [lia | lia | by left |].
    intros Hv. right. exists m0, e0. split; [done|]. apply (Hbig s0); [done | lia]. }
  destruct Hform as [[He Hd] | (C & -> & Hm & HC)].
  - rewrite f64_mul_two in Hvalid |- * by (done || lia).
    destruct (e + 1 <=? 971); [|by left].
    rewrite f64_add_one in Hvalid |- * by lia.
    assert (2 ^ 105 ≤ Z.pos m * 2 ^ (e + 1 + 52)) as Hm1.
    { pose proof (f64_digits_bounds m) as [Hl _]. rewrite Hd in Hl.
      change (2 ^ (53 - 1)) with (2 ^ 52) in Hl.
      assert (2 ^ 53 ≤ 2 ^ (e + 1 + 52)) by (apply Z.pow_le_mono_r; lia).
      change (2 ^ 105) with (2 ^ 52 * 2 ^ 53). nia. }
    assert (∀ P : positive, 2 ^ 104 ≤ Z.pos P → 105 ≤ Z.pos (digits2_pos P)) as Hdig.
    { intros P HP. pose proof (f64_digits_bounds P) as [_ Hu].
      destruct (decide (105 ≤ Z.pos (digits2_pos P))) as [|Hlt]; [done|].
      assert (2 ^ Z.pos (digits2_pos P) ≤ 2 ^ 104) by (apply Z.pow_le_mono_r; lia). lia. }
    destruct (cond_Zopp s (Z.pos m * 2 ^ (e + 1 + 52)) + 2 ^ 52) as [|P|P] eqn:HS.
    + destruct s; cbn [cond_Zopp] in HS; lia.
    + cbn [binary_normalize] in Hvalid |- *.
      assert (s = false) as -> by (destruct s; [cbn [cond_Zopp] in HS; lia | done]).
      cbn [cond_Zopp] in HS.
      destruct (Hlarge false P) as [-> | (m' & e' & -> & Ht & _)];
        [apply Hdig; lia | done | by left |].
      right. exists m', e'. split; [done|]. by left.
    + cbn [binary_normalize] in Hvalid |- *.
      assert (s = true) as -> by (destruct s; [done | cbn [cond_Zopp] in HS; lia]).
      cbn [cond_Zopp] in HS.
      destruct (Hlarge true P) as [-> | (m' & e' & -> & _ & Ht)];
        [apply Hdig; lia | done | by left |].
      right. exists m', e'. by split.
  - set (dC := Z.pos (digits2_pos C)) in *.
    assert (1 ≤ dC) by (unfold dC; lia).
    assert (dC ≤ 53) as HdC.
    { apply f64_small_digits. change (2 ^ 53) with (2 * 2 ^ 52). lia. }
    assert (Z.pos (digits2_pos m) = 53) as Hd.
    { rewrite (f64_digits_shift C m (53 - dC)) by (done || lia). fold dC. lia. }
    rewrite f64_mul_two in Hvalid |- * by (done || lia).
    rewrite (proj2 (Z.leb_le _ _)) in Hvalid |- * by lia.
    rewrite f64_add_one in Hvalid |- * by lia.
    assert (Z.pos m * 2 ^ (dC - 53 + 1 + 52) = Z.pos C * 2 ^ 53) as ->.
    { rewrite Hm, <- Z.mul_assoc, <- Z.pow_add_r by lia. do 2 f_equal. lia. }
    clear Hvalid.
    destruct s; cbn [cond_Zopp].
    + destruct (2 * Z.pos C - 1) as [|N|N] eqn:HN; [lia| |lia].
      assert (Z.pos (digits2_pos N) ≤ 53) as HdN.
      { apply f64_small_digits. change (2 ^ 53) with (2 * 2 ^ 52). lia. }
      destruct (- (Z.pos C * 2 ^ 53) + 2 ^ 52) as [|P|P] eqn:HS;
        [change (2 ^ 53) with (2 * 2 ^ 52) in HS; lia
        |change (2 ^ 53) with (2 * 2 ^ 52) in HS; lia|].
      cbn [binary_normalize].
      destruct (f64_round_int true N P 52) as (m0 & Hround & Hm0); [lia | | done |].
      { change (2 ^ 53) with (2 * 2 ^ 52) in HS. lia. }
      change (Z.opp 52) with (Z.neg 52) in Hround. rewrite Hround.
      right. eexists _, _. split; [done|].
      unfold truncate. rewrite (f64_truncate_int N m0) by done. lia.
    + destruct (decide (Z.pos C = 2 ^ 52)) as [Heq|Hne].
      * rewrite Heq. right. eexists _, _. split; [reflexivity|]. by left.
      * destruct (2 * Z.pos C + 1) as [|N|N] eqn:HN; [lia| |lia].
        assert (Z.pos (digits2_pos N) ≤ 53) as HdN.
        { apply f64_small_digits. change (2 ^ 53) with (2 * 2 ^ 52). lia. }
        destruct (Z.pos C * 2 ^ 53 + 2 ^ 52) as [|P|P] eqn:HS; [lia| |lia].
        cbn [binary_normalize].
        destruct (f64_round_int false N P 52) as (m0 & Hround & Hm0); [lia | | done |].
        { change (2 ^ 53) with (2 * 2 ^ 52) in HS. lia. }
        change (Z.opp 52) with (Z.neg 52) in Hround. rewrite Hround.
        right. eexists _, _. split; [done|]. right. exists C.
        split_and!; [done | done |].
        unfold truncate. by rewrite (f64_truncate_int N m0) by done.
Qed.

Lemma f64_small_unique (C C' : positive) :
  Z.pos C ≤ 2 ^ 52 →
  Z.pos (digits2_pos C) - 53 = Z.pos (digits2_pos C') - 53 →
  Z.pos C * 2 ^ (53 - Z.pos (digits2_pos C)) = Z.pos C' * 2 ^ (53 - Z.pos (digits2_pos C')) →
  C = C'.
Proof.
  intros HC Hd Hm.
  assert (Z.pos (digits2_pos C) ≤ 53) as HdC
    by (apply f64_small_digits; change (2 ^ 53) with (2 * 2 ^ 52); lia).
  assert (Z.pos (digits2_pos C) = Z.pos (digits2_pos C')) as Heq by lia.
  rewrite Heq in Hm. apply Z.mul_cancel_r in Hm; [by injection Hm|].
  apply Z.pow_nonzero; lia.
Qed.

(** The float of the side: NaN, an infinity, or a finite float whose
    integer part is negative, 2^52 at least, or 2 * ceil(sigma) + 1 for the
    ceiling of the real number that sigma denotes. *)
Lemma f64_side_cases (sigma : float) :
  Prim2SF (2 * np_ceil sigma + 1) = S754_nan ∨
  (∃ s, Prim2SF (2 * np_ceil sigma + 1) = S754_infinity s) ∨
  (∃ s m e, Prim2SF (2 * np_ceil sigma + 1) = S754_finite s m e ∧
     ((s = true ∧ 1 ≤ truncate m e) ∨
      (s = false ∧ (2 ^ 52 ≤ truncate m e ∨
                    truncate m e = 2 * Zceil (to_R sigma) + 1)))).
Proof.
  assert (Zceil 0 = 0) as Hceil0 by (apply Zceil_eq; simpl; lra).
  destruct (f64_ceil_cases sigma)
    as [[Hc Hform] | [(m & e & Hsigma & He & Hsmall & Hc)
                     | (s & m & e & C & m0 & Hsigma & _ & _ & Hceil & Hc & Hm0 & HC)]].
  - destruct (Prim2SF sigma) as [s|s| |s m e] eqn:Hsigma.
    + rewrite add_spec, mul_spec, Hc. right; right.
      eexists _, _, _. split; [reflexivity|]. right. split; [done|]. right.
      unfold to_R. rewrite Hsigma, Hceil0. reflexivity.
    + rewrite add_spec, mul_spec, Hc. right; left. by eexists.
    + rewrite add_spec, mul_spec, Hc. by left.
    + destruct (f64_side_of_integer _ s m e Hc) as [-> | (m' & e' & -> & Ht)].
      * left. exact (Hform s m e eq_refl).
      * right; left. by eexists.
      * right; right. exists s, m', e'. split; [done|].
        destruct s; [by left|]. right. split; [done|].
        destruct Ht as [Ht | (C & HeC & _ & Ht)]; [by left|].
        destruct (Hform false m e eq_refl) as [He _].
        pose proof (f64_digits_bounds C) as [Hl _].
        assert (2 ^ 52 ≤ 2 ^ (Z.pos (digits2_pos C) - 1)) by (apply Z.pow_le_mono_r; lia).
        left. lia.
  - rewrite add_spec, mul_spec, Hc. right; right.
    eexists _, _, _. split; [reflexivity|]. right. split; [done|]. right.
    assert (Zceil (to_R sigma) = 0) as ->; [|reflexivity].
    unfold to_R. rewrite Hsigma, (proj2 (Z.leb_gt _ _)) by lia.
    assert (0 < 2 ^ (- e)) by (apply Z.pow_pos_nonneg; lia).
    assert (0 < IZR (Z.pos m) < IZR (2 ^ (- e)))%R as [Hm1 Hm2]
      by (split; apply IZR_lt; lia).
    apply Zceil_eq. simpl.
    assert (0 < / IZR (2 ^ (- e)))%R as Hinv by (apply Rinv_0_lt_compat; lra).
    assert (0 < IZR (Z.pos m) / IZR (2 ^ (- e)) < 1)%R; [|lra].
    split; [unfold Rdiv; apply Rmult_lt_0_compat; lra|].
    apply (Rmult_lt_reg_r (IZR (2 ^ (- e)))); [lra|]. unfold Rdiv.
    rewrite Rmult_assoc, Rinv_l, Rmult_1_r, Rmult_1_l by lra. lra.
  - destruct (f64_side_of_integer _ s m0 _ Hc) as [-> | (m' & e' & -> & Ht)].
    + right. by exists C.
    + right; left. by eexists.
    + right; right. exists s, m', e'. split; [done|].
      destruct s; [by left|]. right. split; [done|].
      destruct Ht as [Ht | (C' & HeC & HmC & Ht)]; [by left|]. right.
      rewrite Hm0 in HmC. rewrite Ht, (Hceil eq_refl).
      by rewrite (f64_small_unique C C' HC HeC HmC).
Qed.

(** For -1 < sigma < 0, [np.ceil(sigma)] is -0.0. *)
Lemma f64_ceil_small_negative (sigma : float) :
  (-1 <? sigma)%float = true → (sigma <? 0)%float = true →
  Prim2SF (np_ceil sigma) = S754_zero true.
Proof.
  rewrite !ltb_spec. unfold SFltb.
  change (Prim2SF (-1)) with (S754_finite true 4503599627370496 (-52)).
  change (Prim2SF 0) with (S754_zero false).
  intros Hlo Hhi.
  destruct (f64_ceil_cases sigma)
    as [[_ Hform] | [(m & e & _ & _ & _ & Hc) | (s & m & e & C & m0 & Hsigma & He & Hq & _)]];
    [|exact Hc|].
  - destruct (Prim2SF sigma) as [s|s| |s m e]; cbn [SFcompare] in Hlo, Hhi.
    + discriminate Hhi.
    + destruct s; [discriminate Hlo | discriminate Hhi].
    + discriminate Hlo.
    + destruct (Hform s m e eq_refl) as [He _].
      destruct s; [|discriminate Hhi].
      destruct (-52 ?= e) eqn:Hcmp; [| discriminate Hlo |].
      * apply Z.compare_eq in Hcmp. lia.
      * apply Z.compare_gt_iff in Hcmp. lia.
  - rewrite Hsigma in Hlo, Hhi. cbn [SFcompare] in Hlo, Hhi.
    destruct s; [|discriminate Hhi]. specialize (Hq eq_refl).
    pose proof (Prim2SF_valid sigma) as Hvalid. rewrite Hsigma in Hvalid.
    apply f64_valid_digits in Hvalid as [Hd _].
    pose proof (f64_digits_bounds m) as [_ Hm].
    assert (Z.pos m < 2 ^ 53) as Hm53.
    { eapply Z.lt_le_trans; [exact Hm|]. apply Z.pow_le_mono_r; lia. }
    destruct (-52 ?= e) eqn:Hcmp; [| discriminate Hlo |].
    + apply Z.compare_eq in Hcmp. subst e.
      destruct (Pos.compare_cont Eq 4503599627370496 m) eqn:Hpos;
        [discriminate Hlo | discriminate Hlo |].
      pose proof (proj1 (Pos.compare_gt_iff 4503599627370496 m) Hpos) as Hgt.
      apply Pos2Z.pos_lt_pos in Hgt. change (2 ^ (- (-52))) with 4503599627370496 in Hq. lia.
    + apply Z.compare_gt_iff in Hcmp.
      assert (2 ^ 53 ≤ 2 ^ (- e)) by (apply Z.pow_le_mono_r; lia). lia.
Qed.

(** For sigma <= -1 the float of the side is negative: -infinity, or a
    finite float whose integer part is 1 at least. *)
Lemma f64_side_negative (sigma : float) :
  (sigma <=? (-1))%float = true →
  Prim2SF (2 * np_ceil sigma + 1) = S754_infinity true ∨
  ∃ m e, Prim2SF (2 * np_ceil sigma + 1) = S754_finite true m e ∧ 1 ≤ truncate m e.
Proof.
  rewrite leb_spec. unfold SFleb.
  change (Prim2SF (-1)) with (S754_finite true 4503599627370496 (-52)).
  intros Hle.
  assert (∀ m e, Prim2SF (np_ceil sigma) = S754_finite true m e →
            (0 ≤ e ∧ Z.pos (digits2_pos m) = 53) ∨
            (∃ C, e = Z.pos (digits2_pos C) - 53 ∧
                  Z.pos m = Z.pos C * 2 ^ (53 - Z.pos (digits2_pos C)) ∧ Z.pos C ≤ 2 ^ 52) →
            Prim2SF (2 * np_ceil sigma + 1) = S754_infinity true ∨
            ∃ m e, Prim2SF (2 * np_ceil sigma + 1) = S754_finite true m e ∧
                   1 ≤ truncate m e) as Hinteger.
  { intros m e Hc Hform. exact (f64_side_of_integer _ true m e Hc Hform). }
  destruct (f64_ceil_cases sigma)
    as [[Hc Hform] | [(m & e & Hsigma & He & Hsmall & _)
                     | (s & m & e & C & m0 & Hsigma & _ & _ & _ & Hc & Hm0 & HC)]].
  - destruct (Prim2SF sigma) as [s|s| |s m e] eqn:Hsigma; cbn [SFcompare] in Hle.
    + discriminate Hle.
    + destruct s; [|discriminate Hle]. rewrite add_spec, mul_spec, Hc. by left.
    + discriminate Hle.
    + destruct s; [|discriminate Hle]. apply (Hinteger m e Hc). left.
      exact (Hform true m e eq_refl).
  - rewrite Hsigma in Hle. cbn [SFcompare] in Hle.
    pose proof (Prim2SF_valid sigma) as Hvalid. rewrite Hsigma in Hvalid.
    destruct (e ?= -52) eqn:Hcmp.
    + apply Z.compare_eq in Hcmp. subst e.
      change (2 ^ (- (-52))) with 4503599627370496 in Hsmall.
      destruct (Pos.compare_cont Eq m 4503599627370496) eqn:Hpos;
        [|discriminate Hle|].
      * pose proof (proj1 (Pos.compare_eq_iff m 4503599627370496) Hpos) as Heq.
        subst m. lia.
      * pose proof (proj1 (Pos.compare_gt_iff m 4503599627370496) Hpos) as Hgt.
        apply Pos2Z.pos_lt_pos in Hgt. lia.
    + discriminate Hle.
    + apply Z.compare_gt_iff in Hcmp.
      apply f64_valid_digits in Hvalid as [_ Hd]. specialize (Hd ltac:(lia)).
      pose proof (f64_digits_bounds m) as [Hl _]. rewrite Hd in Hl.
      change (2 ^ (53 - 1)) with (2 ^ 52) in Hl.
      assert (2 ^ (- e) ≤ 2 ^ 52) by (apply Z.pow_le_mono_r; lia). lia.
  - rewrite Hsigma in Hle. cbn [SFcompare] in Hle.
    destruct s; [|discriminate Hle].
    apply (Hinteger m0 _ Hc). right. by exists C.
Qed.

End Binary64Arithmetic.

(** * The kernel builder over binary64: proofs *)

Section Binary64.
Import F64.
Local Open Scope f64_scope.

Lemma f64_put_id l a w : heap w !! l = Some a → put l a w = w.
Proof.
  intros Hl. destruct w as [h o]. unfold put. simpl in *.
  by rewrite list_insert_id.
Qed.

Lemma f64_put_put l a b w : put l a (put l b w) = put l a w.
Proof. unfold put. simpl. by rewrite list_insert_insert_eq. Qed.

Lemma f64_heap_put l a b w : heap w !! l = Some b → heap (put l a w) !! l = Some a.
Proof.
  intros Hl. simpl. apply list_lookup_insert_eq.
  by eapply lookup_lt_Some.
Qed.

Lemma f64_put_extend w a b : put (length (heap w)) a (extend w b) = extend w a.
Proof.
  unfold put, extend. simpl. f_equal.
  rewrite insert_app_r_alt by lia. by rewrite Nat.sub_diag.
Qed.

Lemma f64_heap_extend w a : heap (extend w a) !! length (heap w) = Some a.
Proof. simpl. rewrite lookup_app_r by lia. by rewrite Nat.sub_diag. Qed.

Lemma f64_heap_extend_old w a l b :
  heap w !! l = Some b → heap (extend w a) !! l = Some b.
Proof. intros Hl. simpl. by apply lookup_app_l_Some. Qed.

Lemma f64_bind_ok {A B} (m : M A) (k : A → M B) a w w' :
  m w = (Ok a, w') → bind m k w = k a w'.
Proof. intros Hm. unfold bind. by rewrite Hm. Qed.

Lemma f64_bind_raise {A B} (m : M A) (k : A → M B) e w w' :
  m w = (Raise e, w') → bind m k w = (Raise e, w').
Proof. intros Hm. unfold bind. by rewrite Hm. Qed.

Lemma f64_for_fmap {A B} (g : A → B) (xs : list A) (body : B → M unit) :
  for_ (g <$> xs) body = for_ xs (λ x, body (g x)).
Proof. induction xs as [|x xs IH]; csimpl; [done | by rewrite IH]. Qed.

Lemma f64_for_update {A} (P : ndarray → Prop) (l : loc) (f : A → ndarray → ndarray)
    (xs : list A) (body : A → M unit) :
  (∀ x a, P a → P (f x a)) →
  (∀ x a w, x ∈ xs → heap w !! l = Some a → P a →
     body x w = (Ok tt, put l (f x a) w)) →
  ∀ a w, heap w !! l = Some a → P a →
    for_ xs body w = (Ok tt, put l (foldl (λ a x, f x a) a xs) w).
Proof.
  intros HP. induction xs as [|x xs IH]; intros Hbody a w Hl Ha; simpl.
  - by rewrite f64_put_id.
  - unfold bind. rewrite (Hbody x a w) by (done || apply list_elem_of_here).
    rewrite (IH (λ x' a' w' Hx', Hbody x' a' w' (list_elem_of_further _ _ _ Hx'))
               (f x a) (put l (f x a) w)).
    + by rewrite f64_put_put.
    + by eapply f64_heap_put.
    + by apply HP.
Qed.

Lemma f64_foldl_with_data {A} (g : A → list float → list float) (xs : list A)
    (a : ndarray) :
  foldl (λ a x, with_data a (g x (data a))) a xs
  = with_data a (foldl (λ d x, g x d) (data a) xs).
Proof.
  revert a. induction xs as [|x xs IH]; intros [sh d]; simpl; [done|].
  by rewrite IH.
Qed.

Section Fill64.
Variable val : nat → nat → float.
Variable n : nat.

Lemma f64_write_row_length y d m : length (write_row val n y d m) = length d.
Proof.
  unfold write_row. induction m as [|m IH]; [done|].
  rewrite seq_S, foldl_app. simpl. by rewrite length_insert.
Qed.

Lemma f64_write_rows_length d m : length (write_rows val n d m) = length d.
Proof.
  unfold write_rows. induction m as [|m IH]; [done|].
  rewrite seq_S, foldl_app. simpl. by rewrite f64_write_row_length.
Qed.

Lemma f64_write_row_lookup y d m i :
  (y * n + m ≤ length d)%nat →
  write_row val n y d m !! i
  = if decide (y * n ≤ i < y * n + m)%nat then Some (val y (i - y * n)) else d !! i.
Proof.
  unfold write_row. induction m as [|m IH]; intros Hlen.
  - simpl. case_decide; [lia | done].
  - rewrite seq_S, foldl_app. simpl.
    destruct (decide (i = y * n + m)%nat) as [->|Hne].
    + rewrite list_lookup_insert_eq.
      * rewrite decide_True by lia. do 2 f_equal. lia.
      * fold (write_row val n y d m). rewrite f64_write_row_length. lia.
    + rewrite list_lookup_insert_ne by done.
      rewrite IH by lia. repeat case_decide; (done || lia).
Qed.

Lemma f64_write_rows_lookup d m i :
  (0 < n)%nat → (m * n ≤ length d)%nat →
  write_rows val n d m !! i
  = if decide (i < m * n)%nat then Some (val (i / n) (i mod n)) else d !! i.
Proof.
  intros Hn. unfold write_rows. induction m as [|m IH]; intros Hlen.
  - by rewrite decide_False by lia.
  - rewrite seq_S, foldl_app. simpl.
    pose proof (f64_write_rows_length d m) as Hm. unfold write_rows in Hm.
    rewrite f64_write_row_lookup by (rewrite Hm; lia).
    rewrite IH by lia.
    destruct (decide (m * n ≤ i < m * n + n)%nat) as [Hi|Hi].
    + rewrite decide_True by lia.
      assert (i / n = m)%nat as Hq by (symmetry; apply (Nat.div_unique i n m (i - m * n)); lia).
      assert (i mod n = i - m * n)%nat as Hr
        by (symmetry; apply (Nat.mod_unique i n m (i - m * n)); lia).
      by rewrite Hq, Hr.
    + repeat case_decide; (done || lia).
Qed.

Lemma f64_write_rows_all d :
  (0 < n)%nat → length d = (n * n)%nat →
  write_rows val n d n = (λ i, val (i / n) (i mod n)) <$> seq 0 (n * n).
Proof.
  intros Hn Hlen. apply list_eq. intros i.
  rewrite f64_write_rows_lookup by lia.
  rewrite list_lookup_fmap. case_decide as Hi.
  - by rewrite lookup_seq_lt.
  - rewrite lookup_seq_ge by lia. simpl. apply lookup_ge_None. lia.
Qed.
End Fill64.

Lemma f64_index_axis_run (i size axis : nat) w :
  (i < size)%nat → index_axis (Z.of_nat i) axis size w = (Ok i, w).
Proof.
  intros Hi. unfold index_axis.
  replace (0 <=? Z.of_nat i)%Z with true by (symmetry; apply Z.leb_le; lia).
  replace (Z.of_nat i <? Z.of_nat size)%Z with true by (symmetry; apply Z.ltb_lt; lia).
  simpl. by rewrite Nat2Z.id.
Qed.

Lemma f64_setitem2_run l (y x h k : nat) v a w :
  heap w !! l = Some a → shape a = [h; k] → (y < h)%nat → (x < k)%nat →
  setitem2 l (Z.of_nat y) (Z.of_nat x) v w
  = (Ok tt, put l (with_data a (<[(y * k + x)%nat := v]> (data a))) w).
Proof.
  intros Hl Hsh Hy Hx. unfold setitem2, bind, load. rewrite Hl, Hsh.
  rewrite f64_index_axis_run by done. rewrite f64_index_axis_run by done.
  unfold store. by rewrite Hl.
Qed.

(** The integers of the loop are far from the largest float. *)
Lemma f64_offsets_small (k x y : Z) :
  (0 ≤ k)%Z → (8 * (k * k) ≤ intp_max)%Z → (0 ≤ x < k)%Z → (0 ≤ y < k)%Z →
  (float_limit <=? Z.abs (- ((x - k / 2) ^ 2 + (y - k / 2) ^ 2)))%Z = false.
Proof.
  intros Hk Hkk Hx Hy. apply Z.leb_gt.
  assert (2 ^ 62 < float_limit)%Z as Hlim by reflexivity.
  assert (intp_max < 2 ^ 63)%Z as Hmax by reflexivity.
  assert (0 ≤ k / 2 ≤ k)%Z as Hc by (split; [apply Z.div_pos; lia | apply Z.div_le_upper_bound; lia]).
  set (c := (k / 2)%Z) in *. clearbody c.
  change (2 ^ 62)%Z with 4611686018427387904%Z in Hlim.
  change (2 ^ 63)%Z with 9223372036854775808%Z in Hmax.
  assert ((x - c) ^ 2 ≤ k * k)%Z by nia.
  assert ((y - c) ^ 2 ≤ k * k)%Z by nia.
  assert (0 ≤ (x - c) ^ 2)%Z by nia.
  assert (0 ≤ (y - c) ^ 2)%Z by nia.
  lia.
Qed.

Context `{Env}.

Lemma loop_body_run sigma l (n y x : nat) (c : Z) a w :
  body_error sigma = None →
  (float_limit <=? Z.abs (- ((Z.of_nat x - c) ^ 2 + (Z.of_nat y - c) ^ 2)))%Z = false →
  heap w !! l = Some a → shape a = [n; n] → (y < n)%nat → (x < n)%nat →
  loop_body sigma l c (Z.of_nat y) (Z.of_nat x) w
  = (Ok tt, put l (with_data a (<[(y * n + x)%nat := entry sigma c y x]> (data a))) w).
Proof.
  unfold body_error. intros Hok Hlim Hl Hsh Hy Hx.
  destruct (is_infinity (sigma * sigma) && negb (is_infinity sigma)) eqn:Hpow; [done|].
  destruct (2 * np_pi * (sigma * sigma) =? 0)%float eqn:Hnorm; [done|].
  destruct (2 * (sigma * sigma) =? 0)%float eqn:Hspread; [done|].
  unfold loop_body, py_pow2, py_div, py_int_div, py_div. cbv zeta.
  rewrite Hpow. unfold bind at 1, ret at 1. rewrite Hnorm.
  unfold bind at 1, ret at 1. unfold bind at 1, ret at 1.
  rewrite Hlim, Hspread. unfold bind at 1, ret at 1.
  by rewrite (f64_setitem2_run l y x n n _ a).
Qed.

Lemma loop_body_fails sigma e l (k : Z) w :
  body_error sigma = Some e →
  (0 < k)%Z → (8 * (k * k) ≤ intp_max)%Z →
  loop_body sigma l (k / 2) 0 0 w = (Raise e, w).
Proof.
  unfold body_error. intros Herr Hk Hkk.
  pose proof (f64_offsets_small k 0 0 ltac:(lia) Hkk ltac:(lia) ltac:(lia)) as Hlim.
  unfold loop_body, py_pow2, py_div, py_int_div, py_div. cbv zeta.
  destruct (is_infinity (sigma * sigma) && negb (is_infinity sigma)) eqn:Hpow.
  { by injection Herr as <-. }
  unfold bind at 1, ret at 1.
  destruct (2 * np_pi * (sigma * sigma) =? 0)%float eqn:Hnorm.
  { by injection Herr as <-. }
  unfold bind at 1, ret at 1. unfold bind at 1, ret at 1.
  rewrite Hlim.
  destruct (2 * (sigma * sigma) =? 0)%float eqn:Hspread; [|done].
  by injection Herr as <-.
Qed.

Lemma f64_row_run sigma (l : loc) (n y : nat) (k : Z) a w :
  body_error sigma = None →
  k = Z.of_nat n → (8 * (k * k) ≤ intp_max)%Z →
  heap w !! l = Some a → shape a = [n; n] → (y < n)%nat →
  for_ (range k) (λ x, loop_body sigma l (k / 2) (Z.of_nat y) x) w
  = (Ok tt, put l (with_data a (write_row (entry sigma (k / 2)) n y (data a) n)) w).
Proof.
  intros Hok -> Hkk Hl Hsh Hy. rewrite range_nat, Nat2Z.id, f64_for_fmap.
  rewrite (f64_for_update (λ a, shape a = [n; n]) l
             (λ x a, with_data a
                (<[(y * n + x)%nat := entry sigma (Z.of_nat n / 2) y x]> (data a)))
             _ _ ltac:(done)) with (a := a); [| | done | done].
  { by rewrite (f64_foldl_with_data
                  (λ x d, <[(y * n + x)%nat := entry sigma (Z.of_nat n / 2) y x]> d)). }
  intros x a' w' Hx Hl' Hsh'. apply elem_of_seq in Hx.
  apply loop_body_run; try done; [|lia].
  apply f64_offsets_small; lia.
Qed.

Lemma f64_loops_run sigma (n : nat) (k : Z) w :
  body_error sigma = None →
  k = Z.of_nat n → (0 < n)%nat → (8 * (k * k) ≤ intp_max)%Z →
  for_ (range k) (λ y, for_ (range k) (λ x, loop_body sigma (length (heap w)) (k / 2) y x))
    (extend w (zeros n))
  = (Ok tt, extend w (raw_kernel sigma k)).
Proof.
  intros Hok Hk Hn Hkk.
  rewrite range_nat at 1. rewrite f64_for_fmap.
  rewrite (f64_for_update (λ a, shape a = [n; n]) (length (heap w))
             (λ y a, with_data a (write_row (entry sigma (k / 2)) n y (data a) n))
             _ _ ltac:(done)) with (a := zeros n); [| | apply f64_heap_extend | done].
  - rewrite (f64_foldl_with_data (λ y d, write_row (entry sigma (k / 2)) n y d n)).
    replace (Z.to_nat k) with n by lia. simpl data.
    change (foldl _ (replicate (n * n) 0%float) (seq 0 n))
      with (write_rows (entry sigma (k / 2)) n (replicate (n * n) 0%float) n).
    rewrite f64_write_rows_all by (done || by rewrite length_replicate).
    rewrite f64_put_extend. unfold raw_kernel, entries, with_data. simpl.
    by replace (Z.to_nat k) with n by lia.
  - intros y a w' Hy Hl Hsh. apply elem_of_seq in Hy.
    replace (Z.to_nat k) with n in Hy by lia.
    by apply f64_row_run; try done; lia.
Qed.

Lemma f64_loops_fail sigma e (n : nat) (k : Z) l w :
  body_error sigma = Some e →
  k = Z.of_nat n → (0 < n)%nat → (8 * (k * k) ≤ intp_max)%Z →
  for_ (range k) (λ y, for_ (range k) (λ x, loop_body sigma l (k / 2) y x)) w
  = (Raise e, w).
Proof.
  intros Herr Hk Hn Hkk.
  assert (range k = 0%Z :: seqZ 1 (k - 1)) as ->.
  { unfold range. rewrite (seqZ_cons 0 k) by lia. f_equal; f_equal; lia. }
  simpl. rewrite (f64_bind_raise _ _ e w w); [done|].
  rewrite (f64_bind_raise _ _ e w w); [done|].
  apply loop_body_fails; (done || lia).
Qed.

(** Lines 37-47 from the allocation on, for a side [k]. *)
Lemma f64_size_run sigma (k : Z) w :
  (kernel <- np_zeros k ;;
   for_ (range k) (λ y, for_ (range k) (λ x, loop_body sigma kernel (k / 2) y x)) ;;;
   ret kernel) w
  = match size_verdict sigma k with
    | Refused e => (Raise e, w)
    | Abandoned e k => (Raise e, extend w (zeros (Z.to_nat k)))
    | Built k => (Ok (length (heap w)), extend w (raw_kernel sigma k))
    end.
Proof.
  unfold size_verdict, np_zeros.
  destruct ((k <? - intp_max - 1)%Z || (intp_max <? k)%Z) eqn:Hdim; [done|].
  destruct (k <? 0)%Z eqn:Hneg; [done|].
  destruct (intp_max <? 8 * (k * k))%Z eqn:Hbig; [done|].
  destruct (can_allocate (Z.to_nat k * Z.to_nat k)) eqn:Hmem; [|done].
  apply Z.ltb_ge in Hneg, Hbig.
  rewrite (f64_bind_ok _ _ (length (heap w)) w (extend w (zeros (Z.to_nat k))))
    by done.
  destruct (k =? 0)%Z eqn:Hzero.
  - apply Z.eqb_eq in Hzero. subst k. reflexivity.
  - apply Z.eqb_neq in Hzero.
    destruct (body_error sigma) as [e|] eqn:Herr.
    + rewrite (f64_bind_raise _ _ e _ (extend w (zeros (Z.to_nat k)))); [done|].
      apply (f64_loops_fail sigma e (Z.to_nat k)); (done || lia).
    + rewrite (f64_bind_ok _ _ tt _ (extend w (raw_kernel sigma k))); [done|].
      apply (f64_loops_run sigma (Z.to_nat k)); (done || lia).
Qed.

Lemma f64_unnormalised_run sigma w :
  unnormalised_kernel sigma w
  = match verdict_of sigma with
    | Refused e => (Raise e, w)
    | Abandoned e k => (Raise e, extend w (zeros (Z.to_nat k)))
    | Built k => (Ok (length (heap w)), extend w (raw_kernel sigma k))
    end.
Proof.
  unfold unnormalised_kernel, verdict_of, int.
  destruct (Prim2SF (2 * np_ceil sigma + 1)) as [s|s| |s m e]; try done.
  - rewrite (f64_bind_ok _ _ 0%Z w w) by done. apply (f64_size_run sigma 0).
  - rewrite (f64_bind_ok _ _ _ w w) by done. apply f64_size_run.
Qed.

Lemma f64_run self sigma w :
  createGaussianKernel self sigma w
  = match verdict_of sigma with
    | Refused e => (Raise e, w)
    | Abandoned e k => (Raise e, extend w (zeros (Z.to_nat k)))
    | Built k =>
        (Ok (length (heap w)),
         extend w (normalised (raw_kernel sigma k) (np_sum_values (entries sigma k))))
    end.
Proof.
  unfold createGaussianKernel. unfold bind at 1. rewrite f64_unnormalised_run.
  destruct (verdict_of sigma) as [e|e k|k]; try done.
  unfold np_sum, np_itruediv, bind, load, store, ret.
  rewrite !f64_heap_extend. f_equal.
  exact (f64_put_extend w _ (raw_kernel sigma k)).
Qed.


Lemma f64_size_verdict_built sigma k k' :
  size_verdict sigma k = Built k' →
  k' = k ∧ (0 ≤ k)%Z ∧ (8 * (k * k) ≤ intp_max)%Z ∧
  can_allocate (Z.to_nat k * Z.to_nat k) = true ∧
  (k = 0%Z ∨ body_error sigma = None).
Proof.
  unfold size_verdict.
  destruct ((k <? - intp_max - 1)%Z || (intp_max <? k)%Z); [done|].
  destruct (k <? 0)%Z eqn:Hneg; [done|].
  destruct (intp_max <? 8 * (k * k))%Z eqn:Hbig; [done|].
  destruct (can_allocate _); [|done].
  apply Z.ltb_ge in Hneg, Hbig.
  destruct (k =? 0)%Z eqn:Hzero.
  - apply Z.eqb_eq in Hzero. intros [= <-]. split_and!; (done || lia || by left).
  - destruct (body_error sigma); [done|]. intros [= <-].
    split_and!; (done || lia || by right).
Qed.

Lemma f64_verdict_built sigma k w :
  verdict_of sigma = Built k →
  int (2 * np_ceil sigma + 1)%float w = (Ok k, w) ∧ size_verdict sigma k = Built k.
Proof.
  unfold verdict_of, int.
  destruct (Prim2SF (2 * np_ceil sigma + 1)) as [s|s| |s m e]; try done.
  - intros Hv. destruct (f64_size_verdict_built _ _ _ Hv) as [-> _]. by split.
  - intros Hv. destruct (f64_size_verdict_built _ _ _ Hv) as [-> _]. by split.
Qed.

(** The side of a kernel that is built is 2 * ceil(sigma) + 1, for the
    ceiling of the real number that sigma denotes: the float arithmetic of
    line 37 is exact whenever the array is small enough to be built. *)
Lemma f64_side_value sigma k :
  verdict_of sigma = Built k → k = side (to_R sigma).
Proof.
  unfold verdict_of, side.
  destruct (f64_side_cases sigma) as [-> | [[s ->] | (s & m & e & -> & Hcases)]];
    [done | done |].
  intros Hv. destruct (f64_size_verdict_built _ _ _ Hv) as (-> & Hk & Hsmall & _).
  destruct Hcases as [[-> Hneg] | [-> [Hbig | Hvalue]]]; cbv iota in Hk, Hsmall |- *.
  - lia.
  - unfold intp_max in Hsmall.
    assert (2 ^ 52 * 2 ^ 52 ≤ truncate m e * truncate m e)%Z by nia. lia.
  - exact Hvalue.
Qed.

Lemma f64_built_side sigma k :
  verdict_of sigma = Built k →
  (0 < k)%Z ∧ Z.odd k = true ∧ (k / 2 = (k - 1) / 2)%Z ∧ (k = 2 * (k / 2) + 1)%Z.
Proof.
  intros Hv. pose proof (f64_side_value sigma k Hv) as Hside. unfold side in Hside.
  destruct (f64_verdict_built sigma k empty_world Hv) as [_ Hsize].
  destruct (f64_size_verdict_built _ _ _ Hsize) as (_ & Hk & _).
  assert (Z.odd k = true) as Hodd by (by rewrite Hside, Z.add_comm, Z.odd_add_mul_2).
  assert (k / 2 = Zceil (to_R sigma))%Z as Hhalf.
  { symmetry. apply (Z.div_unique _ 2 _ 1); lia. }
  assert ((k - 1) / 2 = Zceil (to_R sigma))%Z as Hcentre.
  { symmetry. apply (Z.div_unique _ 2 _ 0); lia. }
  split_and!; [lia | done | lia | lia].
Qed.

Lemma f64_verdict_zero (sigma : float) :
  (sigma =? 0)%float = true →
  verdict_of sigma
  = if can_allocate 1
    then Abandoned (ZeroDivisionError "float division by zero") 1
    else Refused MemoryError.
Proof.
  rewrite FloatAxioms.eqb_spec. unfold SFeqb. change (Prim2SF 0) with (S754_zero false).
  intros Heq.
  assert (sigma = 0%float ∨ sigma = (-0)%float) as [-> | ->].
  { rewrite <- (SF2Prim_Prim2SF sigma).
    destruct (Prim2SF sigma) as [[]|[]| |[] m e]; cbn [SFcompare] in Heq;
      try discriminate Heq; [by right | by left]. }
  - reflexivity.
  - reflexivity.
Qed.

(** A sigma for which a kernel is built denotes a real number above -1
    other than 0. *)
Lemma f64_built_value sigma k :
  verdict_of sigma = Built k → (-1 < to_R sigma)%R ∧ to_R sigma ≠ 0%R.
Proof.
  intros Hv. pose proof (f64_side_value sigma k Hv) as Hside. unfold side in Hside.
  destruct (f64_verdict_built sigma k empty_world Hv) as [_ Hsize].
  destruct (f64_size_verdict_built _ _ _ Hsize) as (_ & Hk & _).
  split.
  - destruct (Zceil_bound (to_R sigma)) as [Hl _].
    assert (0 <= IZR (Zceil (to_R sigma)))%R by (apply IZR_le; lia). lra.
  - unfold to_R. unfold verdict_of, np_ceil in Hv.
    destruct (Prim2SF sigma) as [s|s| |s m e] eqn:Hsigma.
    + exfalso. rewrite add_spec, mul_spec, Hsigma in Hv.
      assert ((sigma =? 0)%float = true) as Hzero.
      { rewrite FloatAxioms.eqb_spec, Hsigma. by destruct s. }
      pose proof (f64_verdict_zero sigma Hzero) as Hz. unfold verdict_of, np_ceil in Hz.
      rewrite Hsigma, add_spec, mul_spec, Hsigma in Hz. rewrite Hz in Hv.
      by destruct (can_allocate 1).
    + exfalso. rewrite add_spec, mul_spec, Hsigma in Hv. by destruct s.
    + exfalso. by rewrite add_spec, mul_spec, Hsigma in Hv.
    + assert (0 < IZR (Z.pos m))%R as Hm by (by apply IZR_lt).
      assert (0 < (if (0 <=? e)%Z then IZR (Z.pos m * 2 ^ e)
                   else IZR (Z.pos m) / IZR (2 ^ (- e))))%R as Hpos.
      { destruct (0 <=? e)%Z eqn:He.
        - apply Z.leb_le in He. apply IZR_lt.
          apply Z.mul_pos_pos; [lia | apply Z.pow_pos_nonneg; lia].
        - apply Z.leb_gt in He.
          assert (0 < IZR (2 ^ (- e)))%R by (apply IZR_lt, Z.pow_pos_nonneg; lia).
          unfold Rdiv. apply Rmult_lt_0_compat; [done | by apply Rinv_0_lt_compat]. }
      cbv zeta. destruct s; lra.
Qed.

Lemma f64_verdict_small_negative (sigma : float) :
  (-1 <? sigma)%float = true → (sigma <? 0)%float = true →
  verdict_of sigma
  = if can_allocate 1
    then match body_error sigma with
         | Some e => Abandoned e 1
         | None => Built 1
         end
    else Refused MemoryError.
Proof.
  intros Hlo Hhi. unfold verdict_of.
  rewrite add_spec, mul_spec, (f64_ceil_small_negative sigma Hlo Hhi).
  reflexivity.
Qed.

Lemma f64_verdict_negative (sigma : float) :
  (sigma <=? (-1))%float = true →
  verdict_of sigma = Refused (OverflowError "cannot convert float infinity to integer") ∨
  ∃ msg, verdict_of sigma = Refused (ValueError msg).
Proof.
  intros Hle. unfold verdict_of.
  destruct (f64_side_negative sigma Hle) as [-> | (m & e & -> & Ht)]; [by left|].
  right. unfold size_verdict.
  destruct ((- truncate m e <? - intp_max - 1)%Z || (intp_max <? - truncate m e)%Z);
    [by eexists|].
  rewrite (proj2 (Z.ltb_lt _ _)) by lia. by eexists.
Qed.

Lemma f64_body_error_kind sigma e :
  body_error sigma = Some e →
  ∃ msg, e = OverflowError msg ∨ e = ZeroDivisionError msg.
Proof.
  unfold body_error. repeat case_match; intros [= <-]; eexists; eauto.
Qed.

Lemma f64_grid_lookup (f : nat → nat → float) (n y x : nat) :
  (y < n)%nat → (x < n)%nat →
  ((λ i, f (i / n) (i mod n))%nat <$> seq 0 (n * n)%nat) !! (y * n + x)%nat = Some (f y x).
Proof.
  intros Hy Hx. rewrite list_lookup_fmap, lookup_seq_lt by nia. simpl.
  assert ((y * n + x) / n = y)%nat as ->
    by (symmetry; apply (Nat.div_unique _ n y x); lia).
  assert ((y * n + x) mod n = x)%nat as ->
    by (symmetry; apply (Nat.mod_unique _ n y x); lia).
  done.
Qed.


Lemma f64_normalised_get2 sigma k total (y x : nat) :
  get2 (normalised (raw_kernel sigma k) total) y x
  = if (y <? Z.to_nat k)%nat && (x <? Z.to_nat k)%nat
    then Some (entry sigma (k / 2) y x / total)%float else None.
Proof.
  unfold get2, normalised, raw_kernel, entries. simpl.
  destruct (y <? Z.to_nat k)%nat eqn:Hy; [|done].
  destruct (x <? Z.to_nat k)%nat eqn:Hx; [|done].
  apply Nat.ltb_lt in Hy, Hx. simpl.
  by rewrite list_lookup_fmap, (f64_grid_lookup (entry sigma (k / 2))).
Qed.

Lemma f64_entry_swap sigma c y x : entry sigma c y x = entry sigma c x y.
Proof. unfold entry. cbv zeta. by rewrite Z.add_comm. Qed.

Lemma f64_entry_mirror sigma c (n y x : nat) :
  Z.of_nat n = (2 * c + 1)%Z → (y < n)%nat →
  entry sigma c (n - 1 - y) x = entry sigma c y x.
Proof.
  intros Hn Hy. unfold entry. cbv zeta.
  replace ((Z.of_nat (n - 1 - y) - c) ^ 2)%Z with ((Z.of_nat y - c) ^ 2)%Z; [done|].
  replace (Z.of_nat (n - 1 - y) - c)%Z with (- (Z.of_nat y - c))%Z by lia.
  lia.
Qed.

(** ** The kernel builder over binary64: what it does *)

(** C9, as the code has it: [createGaussianKernel] is deterministic and
    free of side effects, under the float64 arithmetic of the machine, for
    every sigma, whether it returns or not. Two
    calls with the same sigma, from any two worlds and on any two
    receivers, end the same way: both raise the same exceptions or both
    return, and when they return the two kernels are the same array, equal
    entry by entry as float64 values. Neither call prints, and every array
    that was in the heap before a call is unchanged after it. *)
Theorem createGaussianKernel_same_outcome self1 self2 sigma w1 w2 :
  let run1 := createGaussianKernel self1 sigma w1 in
  let run2 := createGaussianKernel self2 sigma w2 in
  (∀ e, run1.1 = Raise e ↔ run2.1 = Raise e) ∧
  (∀ k1, run1.1 = Ok k1 →
     ∃ k2 a, run2.1 = Ok k2 ∧ heap run1.2 !! k1 = Some a ∧ heap run2.2 !! k2 = Some a) ∧
  run1.1 ≠ Wrong ∧ run2.1 ≠ Wrong ∧
  (∀ l b, heap w1 !! l = Some b → heap run1.2 !! l = Some b) ∧
  (∀ l b, heap w2 !! l = Some b → heap run2.2 !! l = Some b) ∧
  stdout run1.2 = stdout w1 ∧
  stdout run2.2 = stdout w2.
Proof.
  cbv zeta. rewrite !f64_run.
  destruct (verdict_of sigma) as [e|e k|k]; simpl fst; simpl snd;
    (split_and!;
     [ intros e'; split; by intros [= <-]
     | try done
     | done | done
     | try done; intros l b; apply f64_heap_extend_old
     | try done; intros l b; apply f64_heap_extend_old
     | done | done ]).
  intros k1 [= <-]. eexists _, _. split; [done|].
  split; apply f64_heap_extend.
Qed.

(** C4, as the code has it: [createGaussianKernel] does not examine sigma,
    and what decides whether it fails is float64 arithmetic and the
    allocation. It fails exactly when [failure sigma] names an exception:
    2*ceil(sigma)+1 is NaN or infinite ([int] refuses it); the side
    k = int(2*ceil(sigma)+1) is negative, beyond numpy's limits, or cannot
    be allocated; or the first pass through the loop body raises, because
    sigma**2 overflows or 2*pi*sigma**2 or 2*sigma**2 is the float 0.0. In
    every other case it returns a new kernel. For sigma <= 0 this means:
    the call fails for every sigma <= -1, it fails at 0.0 and at -0.0, and
    for -1 < sigma < 0 it fails only when the single cell cannot be
    allocated or the loop body raises. *)
Theorem createGaussianKernel_fails_exactly self sigma w :
  (createGaussianKernel self sigma w).1
  = match failure sigma with
    | Some e => Raise e
    | None => Ok (length (heap w))
    end ∧
  ((sigma <=? (-1))%float = true →
     failure sigma = Some (OverflowError "cannot convert float infinity to integer") ∨
     ∃ msg, failure sigma = Some (ValueError msg)) ∧
  ((sigma =? 0)%float = true →
     failure sigma
     = Some (if can_allocate 1 then ZeroDivisionError "float division by zero"
             else MemoryError)) ∧
  ((-1 <? sigma)%float = true → (sigma <? 0)%float = true →
     failure sigma = if can_allocate 1 then body_error sigma else Some MemoryError).
Proof.
  split_and!.
  - rewrite f64_run. unfold failure. by destruct (verdict_of sigma).
  - intros Hle. unfold failure.
    destruct (f64_verdict_negative sigma Hle) as [-> | [msg ->]]; [by left|].
    right. by exists msg.
  - intros Hzero. unfold failure. rewrite (f64_verdict_zero sigma Hzero).
    by destruct (can_allocate 1).
  - intros Hlo Hhi. unfold failure. rewrite (f64_verdict_small_negative sigma Hlo Hhi).
    destruct (can_allocate 1); [|done]. by destruct (body_error sigma).
Qed.


(** X1: whenever [createGaussianKernel] returns, under float64 arithmetic
    and whatever [np.exp] and [np.sum] compute, the kernel is symmetric:
    the entry at row y and column x is the entry at row x and column y,
    bit for bit. *)
Theorem createGaussianKernel_transpose self sigma w kernel w' a :
  createGaussianKernel self sigma w = (Ok kernel, w') →
  heap w' !! kernel = Some a →
  ∀ y x : nat, get2 a y x = get2 a x y.
Proof.
  rewrite f64_run. intros Hrun.
  destruct (verdict_of sigma) as [e|e k|k]; try done.
  injection Hrun as <- <-. rewrite f64_heap_extend. intros [= <-] y x.
  rewrite !f64_normalised_get2, f64_entry_swap.
  by rewrite (andb_comm (y <? _)%nat).
Qed.

(** X2: whenever [createGaussianKernel] returns, the kernel, of side n,
    reads the same upside down and from right to left: the entry at row
    n-1-y is the entry at row y, and the entry at column n-1-x is the entry
    at column x, bit for bit. *)
Theorem createGaussianKernel_mirror self sigma w kernel w' a (n : nat) :
  createGaussianKernel self sigma w = (Ok kernel, w') →
  heap w' !! kernel = Some a →
  shape a = [n; n] →
  (∀ y x : nat, (y < n)%nat → get2 a (n - 1 - y) x = get2 a y x) ∧
  (∀ y x : nat, (x < n)%nat → get2 a y (n - 1 - x) = get2 a y x).
Proof.
  rewrite f64_run. intros Hrun.
  destruct (verdict_of sigma) as [e|e k|k] eqn:Hv; try done.
  injection Hrun as <- <-. rewrite f64_heap_extend. intros [= <-] [= Hn].
  destruct (f64_built_side sigma k Hv) as (Hk & _ & _ & Hside).
  assert (Z.of_nat n = 2 * (k / 2) + 1)%Z as Hc by lia.
  assert (∀ y x : nat, (y < n)%nat →
            get2 (normalised (raw_kernel sigma k) (np_sum_values (entries sigma k)))
              (n - 1 - y) x
            = get2 (normalised (raw_kernel sigma k) (np_sum_values (entries sigma k))) y x)
    as Hrows.
  { intros y x Hy. rewrite !f64_normalised_get2, Hn.
    replace (n - 1 - y <? n)%nat with true by (symmetry; apply Nat.ltb_lt; lia).
    replace (y <? n)%nat with true by (symmetry; apply Nat.ltb_lt; lia).
    by rewrite (f64_entry_mirror sigma (k / 2) n y x). }
  split; [exact Hrows|].
  intros y x Hx.
  assert (∀ u v, get2 (normalised (raw_kernel sigma k) (np_sum_values (entries sigma k))) u v
                 = get2 (normalised (raw_kernel sigma k) (np_sum_values (entries sigma k))) v u)
    as Hswap.
  { intros u v. rewrite !f64_normalised_get2, f64_entry_swap.
    by rewrite (andb_comm (u <? _)%nat). }
  by rewrite Hswap, Hrows, Hswap.
Qed.




(** X6: a negative sigma above -1 is not refused. For every float sigma
    with -1 < sigma < 0, [np.ceil(sigma)] is -0.0 and the side is 1: the
    call does not raise the ValueError of [np.zeros], every kernel it
    returns is 1 x 1, and it returns one whenever a cell can be allocated
    and the loop body does not raise (sigma ** 2 does not overflow, and
    2*pi*sigma**2 and 2*sigma**2 are not 0.0). *)
Theorem createGaussianKernel_small_negative_sigma self sigma w :
  (-1 <? sigma)%float = true → (sigma <? 0)%float = true →
  let run := createGaussianKernel self sigma w in
  (∀ msg, run.1 ≠ Raise (ValueError msg)) ∧
  (can_allocate 1 = true → body_error sigma = None →
     ∃ a, run = (Ok (length (heap w)), extend w a) ∧ shape a = [1%nat; 1%nat]) ∧
  (∀ kernel w' a,
     run = (Ok kernel, w') → heap w' !! kernel = Some a → shape a = [1%nat; 1%nat]).
Proof.
  intros Hlo Hhi. cbv zeta.
  rewrite f64_run, (f64_verdict_small_negative sigma Hlo Hhi).
  destruct (can_allocate 1); [|by split_and!].
  destruct (body_error sigma) as [e|] eqn:He.
  - apply f64_body_error_kind in He as [msg' [-> | ->]]; by split_and!.
  - split_and!; [done | by eexists | ].
    intros kernel w' a [= <- <-]. rewrite f64_heap_extend. by intros [= <-].
Qed.

(** X21: whenever [createGaussianKernel] returns, the kernel, of side n, is
    radially symmetric: two entries at the same squared distance
    dx^2 + dy^2 from the centre index n // 2 are the same float64 value.
    The symmetries of X1 and X2 are instances. *)
Theorem createGaussianKernel_radial self sigma w kernel w' a (n y x y' x' : nat) :
  createGaussianKernel self sigma w = (Ok kernel, w') →
  heap w' !! kernel = Some a →
  shape a = [n; n] →
  (y < n)%nat → (x < n)%nat → (y' < n)%nat → (x' < n)%nat →
  let c := Z.of_nat (n / 2) in
  ((Z.of_nat x - c) ^ 2 + (Z.of_nat y - c) ^ 2
   = (Z.of_nat x' - c) ^ 2 + (Z.of_nat y' - c) ^ 2)%Z →
  get2 a y x = get2 a y' x'.
Proof.
  rewrite f64_run. intros Hrun.
  destruct (verdict_of sigma) as [e|e k|k] eqn:Hv; try done.
  injection Hrun as <- <-. rewrite f64_heap_extend.
  intros [= <-] [= Hn] Hy Hx Hy' Hx'. cbv zeta.
  destruct (f64_built_side sigma k Hv) as (Hk & _).
  assert (Z.of_nat (n / 2) = k / 2)%Z as ->.
  { rewrite <- Hn, Nat2Z.inj_div, Z2Nat.id by lia. done. }
  intros Hd. rewrite !f64_normalised_get2, Hn.
  apply Nat.ltb_lt in Hy, Hx, Hy', Hx'. rewrite Hy, Hx, Hy', Hx'. simpl.
  unfold entry. cbv zeta. by rewrite Hd.
Qed.


End Binary64.

(** ** The kernel builder over binary64: inputs *)

Section Binary64Inputs.
Import F64.
Local Open Scope f64_scope.

(** C4 fails at sigma = -0.5 and at sigma = 1e10. At -0.5 the call
    returns a 1 x 1 kernel, whatever [np.exp] and [np.sum] compute, as soon
    as one cell can be allocated; on the machine [lab] the kernel is
    [[1.0]]. At 1e10, which is positive, the call fails on every
    machine. *)
Lemma createGaussianKernel_returns_at_minus_half :
  ((-0.5) <=? 0)%float = true ∧
  (∀ (E : Env) (self : helperFunction.t) (w : World),
     can_allocate 1 = true →
     ∃ a, createGaussianKernel self (-0.5) w = (Ok (length (heap w)), extend w a) ∧
          shape a = [1%nat; 1%nat]) ∧
  createGaussianKernel (H := lab) helperFunction.Self (-0.5) empty_world
  = (Ok 0%nat, extend empty_world {| shape := [1%nat; 1%nat]; data := [1%float] |}) ∧
  (sigma_1e10 <=? 0)%float = false ∧
  (∀ (E : Env) (self : helperFunction.t) (w : World),
     ∃ e, (createGaussianKernel self sigma_1e10 w).1 = Raise e).
Proof.
  split_and!; [reflexivity | | vm_compute; reflexivity | reflexivity |].
  - intros E self w Ha. rewrite f64_run.
    assert (verdict_of (-0.5) = Built 1) as ->.
    { unfold verdict_of, size_verdict. vm_compute. vm_compute in Ha. by rewrite Ha. }
    eexists. split; [reflexivity|]. reflexivity.
  - intros E self w. rewrite f64_run.
    assert (∃ e, verdict_of sigma_1e10 = Refused e) as [e ->]
      by (eexists; vm_compute; reflexivity).
    by exists e.
Qed.



(** C9 fails at sigma = 1e10: two calls return no kernels there; both
    raise the ValueError of [np.zeros] for an array that is too big, and
    leave their worlds as they were. *)
Lemma createGaussianKernel_no_kernels_at_1e10 :
  (0 <? sigma_1e10)%float = true ∧
  ∀ (E : Env) (self1 self2 : helperFunction.t) (w1 w2 : World),
    ∃ msg,
      createGaussianKernel self1 sigma_1e10 w1 = (Raise (ValueError msg), w1) ∧
      createGaussianKernel self2 sigma_1e10 w2 = (Raise (ValueError msg), w2).
Proof.
  split; [reflexivity|].
  intros E self1 self2 w1 w2. rewrite !f64_run.
  assert (∃ msg, verdict_of sigma_1e10 = Refused (ValueError msg)) as [msg ->]
    by (eexists; vm_compute; reflexivity).
  by exists msg.
Qed.



Lemma createGaussianKernel_transpose_witness :
  let w' := (createGaussianKernel (H := lab) helperFunction.Self 1 empty_world).2 in
  let a := default (zeros 0) (heap w' !! 0%nat) in
  createGaussianKernel (H := lab) helperFunction.Self 1 empty_world = (Ok 0%nat, w') ∧
  heap w' !! 0%nat = Some a ∧
  shape a = [3%nat; 3%nat] ∧
  ∀ y x : nat, get2 a y x = get2 a x y.
Proof.
  intros w' a.
  assert (createGaussianKernel (H := lab) helperFunction.Self 1 empty_world = (Ok 0%nat, w'))
    as Hrun by (vm_compute; reflexivity).
  assert (heap w' !! 0%nat = Some a) as Ha by (vm_compute; reflexivity).
  split_and!; [exact Hrun | exact Ha | vm_compute; reflexivity |].
  exact (createGaussianKernel_transpose (H := lab) helperFunction.Self 1 empty_world 0%nat w' a
           Hrun Ha).
Defined.

Lemma createGaussianKernel_mirror_witness :
  let w' := (createGaussianKernel (H := lab) helperFunction.Self 2 empty_world).2 in
  let a := default (zeros 0) (heap w' !! 0%nat) in
  createGaussianKernel (H := lab) helperFunction.Self 2 empty_world = (Ok 0%nat, w') ∧
  heap w' !! 0%nat = Some a ∧
  shape a = [5%nat; 5%nat] ∧
  (∀ y x : nat, (y < 5)%nat → get2 a (5 - 1 - y) x = get2 a y x) ∧
  (∀ y x : nat, (x < 5)%nat → get2 a y (5 - 1 - x) = get2 a y x).
Proof.
  intros w' a.
  assert (createGaussianKernel (H := lab) helperFunction.Self 2 empty_world = (Ok 0%nat, w'))
    as Hrun by (vm_compute; reflexivity).
  assert (heap w' !! 0%nat = Some a) as Ha by (vm_compute; reflexivity).
  assert (shape a = [5%nat; 5%nat]) as Hs by (vm_compute; reflexivity).
  split_and!; [exact Hrun | exact Ha | exact Hs | |];
    apply (createGaussianKernel_mirror (H := lab) helperFunction.Self 2 empty_world 0%nat w' a
             5%nat Hrun Ha Hs).
Defined.

Lemma createGaussianKernel_small_negative_sigma_witness :
  let run := createGaussianKernel (H := lab) helperFunction.Self (-0.5) empty_world in
  (-1 <? -0.5)%float = true ∧ (-0.5 <? 0)%float = true ∧
  (∀ msg, run.1 ≠ Raise (ValueError msg)) ∧
  (can_allocate (Env := lab) 1 = true → body_error (-0.5) = None →
     ∃ a, run = (Ok (length (heap empty_world)), extend empty_world a) ∧
          shape a = [1%nat; 1%nat]) ∧
  (∀ kernel w' a,
     run = (Ok kernel, w') → heap w' !! kernel = Some a → shape a = [1%nat; 1%nat]).
Proof.
  intros run. split; [reflexivity|]. split; [reflexivity|].
  exact (createGaussianKernel_small_negative_sigma (H := lab) helperFunction.Self (-0.5)
           empty_world eq_refl eq_refl).
Defined.

Lemma createGaussianKernel_radial_witness :
  let w' := (createGaussianKernel (H := lab) helperFunction.Self 1 empty_world).2 in
  let a := default (zeros 0) (heap w' !! 0%nat) in
  createGaussianKernel (H := lab) helperFunction.Self 1 empty_world = (Ok 0%nat, w') ∧
  heap w' !! 0%nat = Some a ∧
  shape a = [3%nat; 3%nat] ∧
  get2 a 0 1 = get2 a 1 2.
Proof.
  intros w' a.
  assert (createGaussianKernel (H := lab) helperFunction.Self 1 empty_world = (Ok 0%nat, w'))
    as Hrun by (vm_compute; reflexivity).
  assert (heap w' !! 0%nat = Some a) as Ha by (vm_compute; reflexivity).
  assert (shape a = [3%nat; 3%nat]) as Hs by (vm_compute; reflexivity).
  split_and!; [exact Hrun | exact Ha | exact Hs |].
  apply (createGaussianKernel_radial (H := lab) helperFunction.Self 1 empty_world 0%nat w' a
           3 0 1 1 2 Hrun Ha Hs); [lia | lia | lia | lia | reflexivity].
Defined.

End Binary64Inputs.

(** ** The two readings of the kernel builder *)

(** X22: the reading over the reals follows binary64 where the Gaussian
    stage relies on it. Whenever the builder returns over binary64, sigma
    denotes a real number above -1 other than 0, and the builder read over
    the reals returns at that number too, from any world, a kernel of the
    same shape, of side 2*ceil(sigma)+1. *)
Theorem createGaussianKernel_readings_agree `{F64.Env} self (sigma : float)
    (w w' : F64.World) (kernel : loc) (a : F64.ndarray) (w0 : World) :
  F64.createGaussianKernel self sigma w = (F64.Ok kernel, w') →
  F64.heap w' !! kernel = Some a →
  ∃ b, helperFunction.createGaussianKernel self (F64.to_R sigma) w0
       = (Ok (length (heap w0)), extend w0 b) ∧
       shape b = F64.shape a ∧
       shape b = [Z.to_nat (side (F64.to_R sigma)); Z.to_nat (side (F64.to_R sigma))].
Proof.
  rewrite f64_run. intros Hrun.
  destruct (F64.verdict_of sigma) as [e|e k|k] eqn:Hv; try done.
  injection Hrun as <- <-. rewrite f64_heap_extend. intros [= <-].
  destruct (f64_built_value sigma k Hv) as [Hlo Hnz].
  exists (gaussian_kernel (F64.to_R sigma)). split_and!.
  - by apply createGaussianKernel_run.
  - simpl. by rewrite (f64_side_value sigma k Hv).
  - done.
Qed.

Lemma createGaussianKernel_readings_agree_witness :
  let w' := (F64.createGaussianKernel (H := F64.lab) helperFunction.Self 1 F64.empty_world).2 in
  let a := default (F64.zeros 0) (F64.heap w' !! 0%nat) in
  F64.createGaussianKernel (H := F64.lab) helperFunction.Self 1 F64.empty_world
  = (F64.Ok 0%nat, w') ∧
  F64.heap w' !! 0%nat = Some a ∧
  ∃ b, helperFunction.createGaussianKernel helperFunction.Self (F64.to_R 1) empty_world
       = (Ok (length (heap empty_world)), extend empty_world b) ∧
       shape b = F64.shape a ∧
       shape b = [Z.to_nat (side (F64.to_R 1)); Z.to_nat (side (F64.to_R 1))].
Proof.
  intros w' a.
  assert (F64.createGaussianKernel (H := F64.lab) helperFunction.Self 1 F64.empty_world
          = (F64.Ok 0%nat, w')) as Hrun by (vm_compute; reflexivity).
  assert (F64.heap w' !! 0%nat = Some a) as Ha by (vm_compute; reflexivity).
  split_and!; [exact Hrun | exact Ha |].
  exact (createGaussianKernel_readings_agree (H := F64.lab) helperFunction.Self 1
           F64.empty_world w' 0%nat a empty_world Hrun Ha).
Defined.
